(** * perdata/lazy: a lazy collection with deferred Slice and Splice

    A shallow embedding of [array.go] (package [lazy]) and of the string
    [Slicer] its test-suite uses as leaf payload, followed by the
    properties of the natural-language specification.

    Conventions.
    - Go's [int] is the 64-bit two's-complement integer of the amd64
      target the repository benchmarks on: a [Z] kept in range by [wrap],
      with [add] and [sub] for the wrapping [+] and [-].
    - [interface{}] values stored in [Array.Value] are a tagged union:
      the nil interface, a [Slicer] payload, or a nested [Array].
    - [*Array] is [option Array]; the zero value of a field is [0],
      [VNil] or [None].
    - A [panic] is an explicit error result.
    - [ForEach] takes a callback; the embedding returns the log of the
      traversal instead: the calls made to the callback, in order, and
      the panic that stopped it, if any.  The log also records each
      window the method [forEach] is entered with.

    Plan.  The model; the eager reference, the content a node stands
    for and the invariant [wf_below B] of nodes whose counts stay below
    a bound [B]; then the proofs: [Slice] and [Splice] refine the eager
    operations as long as counts are ints ([Slice_refines],
    [Splice_refines]); [forEach] visits exactly the requested window of
    the content when counts stay below [cap = 2^62]
    ([traversal_correct]) and never leaves the bounds when they stay
    below [int_cap = 2^63] ([traversal_safe]); a sequence of edits is
    simulated step by step ([run_simulation]).  The claims of the
    specification follow, each with the concrete runs that illustrate
    or refute it.  Beyond these bounds the [int] arithmetic of [Slice],
    [Splice] and [intersect] wraps around; the nodes of module
    [Overflow] show what happens then.  Further properties of the code
    come last: the algebra of [intersect], [Slice] and [Splice], what
    the limit counts, and the randomized test and the benchmarks of the
    test-suite, run against every random number generator. *)

From Stdlib Require Import String Ascii ZArith Lia Bool List.
Import ListNotations.
Local Open Scope Z_scope.

(** ** Go's [int] *)

Module GoInt.

Definition min_int : Z := - 2 ^ 63.
Definition max_int : Z := 2 ^ 63 - 1.

Definition in_range (z : Z) : Prop := min_int <= z <= max_int.

(** Two's-complement reduction of a mathematical integer. *)
Definition wrap (z : Z) : Z := (z + 2 ^ 63) mod 2 ^ 64 - 2 ^ 63.

Definition add (x y : Z) : Z := wrap (x + y).
Definition sub (x y : Z) : Z := wrap (x - y).

End GoInt.
Import GoInt.

(** ** Panics and results *)

Inductive panic : Type :=
| InvalidSliceArgs                      (* panic("invalid slice args") *)
| InvalidSpliceArgs                     (* panic("invalid splice args") *)
| NotASlicer                            (* v.(Slicer) on a value that is none *)
| SliceBounds (len offset count : Z).   (* s[offset:offset+count] out of range *)

Inductive result (T : Type) : Type :=
| Ok (t : T)
| Panic (e : panic).
Arguments Ok {T} t.
Arguments Panic {T} e.

Section Lazy.

(** Element type of the leaf payloads ([byte] for the test-suite's
    [type Slicer string]). *)
Context {A : Type}.

Local Abbreviation len l := (Z.of_nat (List.length l)) (only parsing).

(** *** The leaf payload: [Slicer]

    [func (s Slicer) Slice(offset, count int) interface{} {
       return s[offset : offset+count] }]
    Go's slice expression panics unless
    [0 <= offset <= offset+count <= len(s)]. *)
Definition sub_list (l : list A) (offset count : Z) : list A :=
  firstn (Z.to_nat count) (skipn (Z.to_nat offset) l).

Definition Slicer_Slice (s : list A) (offset count : Z) : result (list A) :=
  let hi := add offset count in
  if (0 <=? offset) && (offset <=? hi) && (hi <=? len s)
  then Ok (sub_list s offset (hi - offset))
  else Panic (SliceBounds (len s) offset count).

(** *** The node *)

#[local] Unset Elimination Schemes.

Inductive Array : Type :=
  mkArray (Limit Count : Z) (Value : value)
          (offset rcount : Z) (replacement : option Array)
with value : Type :=
| VNil                       (* nil interface{} (or any non-Slicer) *)
| VSlicer (s : list A)       (* a leaf payload *)
| VArray (a : Array).        (* a nested lazy.Array *)

#[local] Set Elimination Schemes.

Definition Limit (a : Array) : Z := let (l, _, _, _, _, _) := a in l.
Definition Count (a : Array) : Z := let (_, c, _, _, _, _) := a in c.
Definition Value (a : Array) : value := let (_, _, v, _, _, _) := a in v.
Definition offset (a : Array) : Z := let (_, _, _, o, _, _) := a in o.
Definition rcount (a : Array) : Z := let (_, _, _, _, r, _) := a in r.
Definition replacement (a : Array) : option Array :=
  let (_, _, _, _, _, r) := a in r.

(** [lazy.Array{}] *)
Definition zero : Array := mkArray 0 0 VNil 0 0 None.

(** [lazy.Array{Limit: limit, Count: len(s), Value: Slicer(s)}] *)
Definition leaf (limit : Z) (s : list A) : Array :=
  mkArray limit (len s) (VSlicer s) 0 0 None.

(** *** Slice *)

(** [offset < 0 || count < 0 || offset+count > a.Count] *)
Definition bad_args (a : Array) (off cnt : Z) : bool :=
  (off <? 0) || (cnt <? 0) || (Count a <? add off cnt).

Definition Slice (a : Array) (off cnt : Z) : result Array :=
  if bad_args a off cnt then Panic InvalidSliceArgs
  else if (off =? 0) && (cnt =? Count a) then Ok a
  else if cnt =? 0 then Ok (mkArray (Limit a) 0 VNil 0 0 None)
  else match replacement a with
       | None =>
           Ok (mkArray (Limit a) cnt (Value a) (add (offset a) off) 0 None)
       | Some _ =>
           Ok (mkArray (sub (Limit a) 1) cnt (VArray a) off 0 None)
       end.

(** *** Splice *)

Definition is_some {T} (o : option T) : bool :=
  match o with Some _ => true | None => false end.

Definition Splice (a : Array) (off cnt : Z) (r : Array) : result Array :=
  if bad_args a off cnt then Panic InvalidSpliceArgs
  else if (off =? 0) && (cnt =? Count a) then Ok r
  else
    let diff := sub (Count r) cnt in
    let nested := negb (offset a =? 0) || is_some (replacement a) in
    let v := if nested then VArray a else Value a in
    let limit := if nested then sub (Limit a) 1 else Limit a in
    Ok (mkArray limit (add (Count a) diff) v off cnt (Some r)).

(** *** intersect *)

Definition intersect (o1 c1 o2 c2 : Z) : Z * Z :=
  let s := if o1 <? o2 then o2 else o1 in
  let e := add o1 c1 in
  let e := if add o2 c2 <? e then add o2 c2 else e in
  if s <? e then (s, sub e s) else (0, 0).

(** *** Traversal

    The log of a traversal.  [Visit src off cnt seg] is one call
    [fn(seg, cnt)] of the callback, where [seg] is what the payload
    [src] returned for [Slice(off, cnt)]; [Window n off cnt] records
    that [forEach(off, cnt)] was entered on a node whose [Count] is [n]
    (the callback does not see it). *)

Inductive event : Type :=
| Window (n off cnt : Z)
| Visit (src : list A) (off cnt : Z) (seg : list A).

Definition trace : Type := list event * option panic.

Definition done : trace := ([], None).

(** Sequencing of two statements: the second runs unless the first
    panicked. *)
Definition andThen (t1 t2 : trace) : trace :=
  match t1 with
  | (e1, None) => let (e2, p) := t2 in (e1 ++ e2, p)
  | (e1, Some p) => (e1, Some p)
  end.

Definition emit (e : event) (t : trace) : trace :=
  let (es, p) := t in (e :: es, p).

(** [Array_forEach] is the method [(a Array) forEach], [forEach] the
    function [forEach(v interface{}, ...)]. *)
Fixpoint Array_forEach (a : Array) (off cnt : Z) {struct a} : trace :=
  match a with
  | mkArray _ n v aoff rc rep =>
      emit (Window n off cnt)
        (if cnt =? 0 then done
         else match rep with
              | Some r =>
                  let (o1, c1) := intersect off cnt 0 aoff in
                  let (o2, c2) := intersect off cnt aoff (Count r) in
                  let (o3, c3) :=
                    intersect off cnt (add aoff (Count r)) n in
                  andThen (forEach v o1 c1)
                    (andThen (Array_forEach r (sub o2 aoff) c2)
                       (forEach v (add (sub o3 (Count r)) rc) c3))
              | None => forEach v (add aoff off) cnt
              end)
  end
with forEach (v : value) (off cnt : Z) {struct v} : trace :=
  if cnt =? 0 then done
  else match v with
       | VArray a => Array_forEach a off cnt
       | VSlicer s =>
           match Slicer_Slice s off cnt with
           | Ok seg => ([Visit s off cnt seg], None)
           | Panic e => ([], Some e)
           end
       | VNil => ([], Some NotASlicer)
       end.

Definition ForEach (a : Array) : trace := Array_forEach a 0 (Count a).

(** What the callback receives: the pairs [(segment, count)]. *)
Fixpoint calls (es : list event) : list (list A * Z) :=
  match es with
  | [] => []
  | Window _ _ _ :: es => calls es
  | Visit _ _ cnt seg :: es => (seg, cnt) :: calls es
  end.

(** The test-suite's [toString]: the concatenation of the segments of
    a traversal that ran to completion. *)
Definition flatten (t : trace) : option (list A) :=
  match t with
  | (es, None) => Some (concat (map fst (calls es)))
  | (_, Some _) => None
  end.

Definition toString (a : Array) : option (list A) := flatten (ForEach a).

(** *** The eager reference

    What the test-suite compares against: the substring
    [s[offset : offset+count]] and the replace
    [s[:offset] + r + s[offset+count:]], performed at once on the
    content itself.  They follow the specification's words (head, then
    replacement, then tail) and are total; whether a window is in
    bounds is [in_bounds]. *)

Definition eager_slice (s : list A) (off cnt : Z) : list A :=
  sub_list s off cnt.

Definition eager_splice (s : list A) (off cnt : Z) (r : list A) : list A :=
  firstn (Z.to_nat off) s ++ r ++ skipn (Z.to_nat (off + cnt)) s.

(** A window that lies within [[0, n]], as integers. *)
Definition in_bounds (n off cnt : Z) : Prop :=
  0 <= off /\ 0 <= cnt /\ off + cnt <= n.

(** *** The content a node stands for

    The abstraction function of the refinement: a node without
    replacement is the window [[offset, offset+Count)] of its value; a
    node with a replacement is the head of its value up to [offset],
    the replacement, and the tail of the value after the replaced
    range. *)

Fixpoint contents (a : Array) : list A :=
  match a with
  | mkArray _ n v o rc rep =>
      match rep with
      | None => sub_list (vcontents v) o n
      | Some r =>
          firstn (Z.to_nat o) (vcontents v) ++ contents r
            ++ sub_list (vcontents v) (o + rc) (n - Count r - o)
      end
  end
with vcontents (v : value) : list A :=
  match v with
  | VNil => []
  | VSlicer s => s
  | VArray a => contents a
  end.

(** The leaf payloads a node can reach. *)
Fixpoint leaves (a : Array) : list (list A) :=
  match a with
  | mkArray _ _ v _ _ rep =>
      vleaves v ++ match rep with Some r => leaves r | None => [] end
  end
with vleaves (v : value) : list (list A) :=
  match v with
  | VNil => []
  | VSlicer s => [s]
  | VArray a => leaves a
  end.

(** *** Well-formed nodes

    [wf_below B a]: every window recorded in [a] lies within what it is
    taken from, and every count is below [B].  Two bounds matter:
    below [int_cap] no count leaves the range of [int]; below [cap] no
    [int] operation of the traversal wraps around. *)

Definition cap : Z := 2 ^ 62.
Definition int_cap : Z := 2 ^ 63.

Fixpoint wf_below (B : Z) (a : Array) : Prop :=
  match a with
  | mkArray _ n v o rc rep =>
      match rep with
      | None =>
          0 <= o /\ 0 <= n /\ o + n < B /\ provides_below B v (o + n)
      | Some r =>
          wf_below B r /\ 0 <= o /\ 0 <= rc /\
          o + rc <= n - Count r + rc /\ n - Count r + rc < B /\
          n < B /\ provides_below B v (n - Count r + rc)
      end
  end
with provides_below (B : Z) (v : value) (k : Z) : Prop :=
  match v with
  | VNil => k = 0
  | VSlicer s => k <= len s
  | VArray a => wf_below B a /\ k <= Count a
  end.

(** *** Nodes reachable through the public API

    [api a]: [a] is a caller-made leaf whose [Count] does not exceed
    its payload, the zero value, or the result of a [Slice] or [Splice]
    call that returned. *)

Inductive api : Array -> Prop :=
| api_zero : api zero
| api_leaf limit n s :
    0 <= n <= len s -> n <= max_int ->
    api (mkArray limit n (VSlicer s) 0 0 None)
| api_Slice a off cnt b :
    api a -> Slice a off cnt = Ok b -> api b
| api_Splice a off cnt r b :
    api a -> api r -> Splice a off cnt r = Ok b -> api b.

(** [built_below B a]: as [api], with every window in bounds as
    integers and every count below [B]. *)

Inductive built_below (B : Z) : Array -> Prop :=
| built_zero : built_below B zero
| built_leaf limit n s :
    0 <= n <= len s -> n < B ->
    built_below B (mkArray limit n (VSlicer s) 0 0 None)
| built_Slice a off cnt b :
    built_below B a -> in_bounds (Count a) off cnt ->
    Slice a off cnt = Ok b -> built_below B b
| built_Splice a off cnt r b :
    built_below B a -> built_below B r -> in_bounds (Count a) off cnt ->
    Count a + (Count r - cnt) < B ->
    Splice a off cnt r = Ok b -> built_below B b.

End Lazy.

Arguments Array A : clear implicits.
Arguments value A : clear implicits.
Arguments event A : clear implicits.
Arguments trace A : clear implicits.

(** ** The scenario of [TestArray] *)

Module TestArray.

Definition str (s : string) : list ascii := list_ascii_of_string s.
Definition newArray (s : string) : Array ascii := leaf 0 (str s).

Definition nothing : Array ascii := zero.

Definition get {T} (d : T) (r : result T) : T :=
  match r with Ok t => t | Panic _ => d end.

Definition hello := get nothing (Splice nothing 0 0 (newArray "hello")).
Definition jello := get nothing (Splice hello 0 1 (newArray "j")).
Definition jimbo := get nothing (Splice jello 1 3 (newArray "imb")).
Definition jino := get nothing (Splice jimbo 2 2 (newArray "n")).
Definition jinova := get nothing (Splice jino 4 0 (newArray "va")).
Definition djino := get nothing (Splice (newArray "d") 1 0 jino).
Definition djinojinova := get nothing (Splice djino 5 0 jinova).

End TestArray.

(** ** Reading a traversal log *)

Section Logs.

Context {A : Type}.

Local Abbreviation len l := (Z.of_nat (List.length l)) (only parsing).

(** The concatenation of the segments handed to the callback. *)
Definition segments (es : list (event A)) : list A :=
  concat (map fst (calls es)).

(** The sum of the lengths handed to the callback. *)
Definition total (es : list (event A)) : Z :=
  fold_right Z.add 0 (map snd (calls es)).

(** A window that is empty, or non-empty and within [[0, n]]. *)
Definition window_ok (n off cnt : Z) : Prop :=
  cnt = 0 \/ (0 <= off /\ 0 < cnt /\ off + cnt <= n).

(** What a sound traversal logs: a non-empty window lies within the node
    it is requested from; a visit hands over a non-empty, in-range part
    of one of the leaf payloads [L], with its true length. *)
Definition event_ok (L : list (list A)) (e : event A) : Prop :=
  match e with
  | Window n off cnt => window_ok n off cnt
  | Visit s off cnt seg =>
      In s L /\ 0 <= off /\ 1 <= cnt /\ off + cnt <= len s /\
      seg = sub_list s off cnt
  end.

(** A call of the callback with at least one element, of the length
    it announces. *)
Definition proper_visit (e : event A) : Prop :=
  match e with
  | Window _ _ _ => True
  | Visit _ _ cnt seg => 1 <= cnt /\ len seg = cnt
  end.

(** Two consecutive visits that are adjacent parts of the same payload:
    together they are one contiguous run of leaf content. *)
Definition adjacent (e1 e2 : event A) : Prop :=
  match e1, e2 with
  | Visit s1 o1 c1 _, Visit s2 o2 _ _ => s1 = s2 /\ o2 = o1 + c1
  | _, _ => False
  end.

(** The visits of a log, without the windows. *)
Definition visits (es : list (event A)) : list (event A) :=
  filter (fun e => match e with Visit _ _ _ _ => true | _ => false end) es.

(** Every visit is a maximal run: no visit continues the one before. *)
Fixpoint maximal_runs (vs : list (event A)) : Prop :=
  match vs with
  | e1 :: (e2 :: _) as rest => ~ adjacent e1 e2 /\ maximal_runs rest
  | _ => True
  end.

(** A traversal that ran to completion, visiting exactly [content], in
    pieces whose lengths add up to [cnt], each taken from a payload of
    [L]. *)
Definition runs_to (t : trace A) (L : list (list A)) (content : list A)
    (cnt : Z) : Prop :=
  exists es, t = (es, None) /\ Forall (event_ok L) es /\
             segments es = content /\ total es = cnt.

(** Correctness of the traversal of a node, and of a value that
    provides [k] elements, below [cap]: a window that is empty or in
    bounds is traversed to completion and visits exactly that window of
    the content. *)
Definition Array_forEach_correct (a : Array A) : Prop :=
  wf_below cap a -> forall off cnt, window_ok (Count a) off cnt ->
  runs_to (Array_forEach a off cnt) (leaves a)
    (sub_list (contents a) off cnt) cnt.

Definition forEach_correct (v : value A) : Prop :=
  forall k, provides_below cap v k -> k < cap -> forall off cnt,
  window_ok k off cnt ->
  runs_to (forEach v off cnt) (vleaves v)
    (sub_list (vcontents v) off cnt) cnt.

(** A traversal that ran to completion and logged only sound events. *)
Definition runs_safely (t : trace A) (L : list (list A)) : Prop :=
  exists es, t = (es, None) /\ Forall (event_ok L) es.

(** Safety of the traversal below [int_cap]: a window that is empty or
    in bounds is traversed to completion, and so are the windows it
    leads to. *)
Definition Array_forEach_safe (a : Array A) : Prop :=
  wf_below int_cap a -> forall off cnt, window_ok (Count a) off cnt ->
  runs_safely (Array_forEach a off cnt) (leaves a).

Definition forEach_safe (v : value A) : Prop :=
  forall k, provides_below int_cap v k -> k < int_cap -> forall off cnt,
  window_ok k off cnt ->
  runs_safely (forEach v off cnt) (vleaves v).

End Logs.

(** ** Sequences of edits: the differential test

    [TestRandomSplices] applies the same edits to a lazy node and to a
    string and compares after each one.  Here an edit may start from any
    earlier result and may take any earlier result as replacement: the
    results are kept in a history, in order, and an edit names its
    operands by their position in it. *)

Section Script.

Context {A : Type}.

Local Abbreviation len l := (Z.of_nat (List.length l)) (only parsing).

Inductive edit : Type :=
| NewLeaf (limit : Z) (s : list A)
| DoSlice (base : nat) (off cnt : Z)
| DoSplice (base : nat) (off cnt : Z) (repl : nat).

(** Runs the edits one after the other; each result is appended to the
    history.  [None] when an edit fails. *)
Fixpoint run {T : Type} (step : list T -> edit -> option T)
    (h : list T) (es : list edit) : option (list T) :=
  match es with
  | [] => Some h
  | e :: es =>
      match step h e with
      | Some x => run step (h ++ [x]) es
      | None => None
      end
  end.

(** The engine's side: [None] for a missing operand or a panic. *)
Definition lazy_step (h : list (Array A)) (e : edit) : option (Array A) :=
  match e with
  | NewLeaf limit s => Some (leaf limit s)
  | DoSlice i off cnt =>
      match nth_error h i with
      | Some a =>
          match Slice a off cnt with Ok b => Some b | Panic _ => None end
      | None => None
      end
  | DoSplice i off cnt j =>
      match nth_error h i, nth_error h j with
      | Some a, Some r =>
          match Splice a off cnt r with Ok b => Some b | Panic _ => None end
      | _, _ => None
      end
  end.

Definition in_boundsb (n off cnt : Z) : bool :=
  (0 <=? off) && (0 <=? cnt) && (off + cnt <=? n).

(** The reference's side: the edit is performed on the content at once.
    [None] for a missing operand or a window out of bounds. *)
Definition eager_step (h : list (list A)) (e : edit) : option (list A) :=
  match e with
  | NewLeaf _ s => Some s
  | DoSlice i off cnt =>
      match nth_error h i with
      | Some s =>
          if in_boundsb (len s) off cnt then Some (eager_slice s off cnt)
          else None
      | None => None
      end
  | DoSplice i off cnt j =>
      match nth_error h i, nth_error h j with
      | Some s, Some r =>
          if in_boundsb (len s) off cnt
          then Some (eager_splice s off cnt r) else None
      | _, _ => None
      end
  end.

(** The lengths of the reference's contents, without the contents. *)
Definition length_step (h : list Z) (e : edit) : option Z :=
  match e with
  | NewLeaf _ s => Some (len s)
  | DoSlice i off cnt =>
      match nth_error h i with
      | Some n => if in_boundsb n off cnt then Some cnt else None
      | None => None
      end
  | DoSplice i off cnt j =>
      match nth_error h i, nth_error h j with
      | Some n, Some m =>
          if in_boundsb n off cnt then Some (n + (m - cnt)) else None
      | _, _ => None
      end
  end.

(** A lazy node stands for a content. *)
Definition stands_for (a : Array A) (s : list A) : Prop :=
  wf_below cap a /\ contents a = s.

End Script.

Arguments edit A : clear implicits.

(** ** Concrete nodes *)

(** The variants of the specification's data model, read off the fields
    as the code does: a splice-view has a replacement; a bare leaf holds
    a payload, with no offset and no replacement; a slice-view has no
    replacement and either an offset or another node as its value. *)

Section Variants.

Context {A : Type}.

Definition is_splice_view (a : Array A) : Prop := replacement a <> None.

Definition is_bare_leaf (a : Array A) : Prop :=
  replacement a = None /\ offset a = 0 /\ exists s, Value a = VSlicer s.

Definition is_slice_view (a : Array A) : Prop :=
  replacement a = None /\ (offset a <> 0 \/ exists n, Value a = VArray n).

End Variants.

Module Views.

Import TestArray.

(** [hello.Splice(2, 0, lazy.Array{})]: nothing inserted at 2. *)
Definition he_llo : Array ascii := get nothing (Splice hello 2 0 nothing).

(** [jello.Slice(0, 3)]: a slice-view of a splice-view, at offset 0. *)
Definition jel : Array ascii := get nothing (Slice jello 0 3).

(** [hello.Splice(2, 0, x).Slice(0, 1)]: a window left of the
    replacement. *)
Definition hexllo : Array ascii := get nothing (Splice hello 2 0 (newArray "x")).
Definition h : Array ascii := get nothing (Slice hexllo 0 1).

End Views.

Module Overflow.

Import TestArray.

(** [a.Splice(1, 0, a)]: [a] inserted into itself. *)
Definition double (a : Array ascii) : Array ascii :=
  get a (Splice a 1 0 a).

Definition ab : Array ascii := newArray "ab".

(** [ab], doubled [n] times: [2^(n+1)] elements. *)
Definition doubled (n : nat) : Array ascii := Nat.iter n double ab.

(** [3 * 2^61] elements. *)
Definition big : Array ascii :=
  get nothing (Splice (doubled 60) (2 ^ 61 - 1) 0 (doubled 61)).

(** The last element of [big]. *)
Definition last_of_big : Array ascii :=
  get nothing (Slice big (Count big - 1) 1).

(** [hello.Slice(math.MaxInt64, 1)] *)
Definition beyond : Array ascii := get nothing (Slice hello max_int 1).

(** The same edits as a script: position [k] holds [doubled k], position
    62 holds [big] and position 63 its last element. *)
Definition script : list (edit ascii) :=
  map (fun k => DoSplice k 1 0 k) (seq 0 61)
  ++ [DoSplice 60 (2 ^ 61 - 1) 0 61; DoSlice 62 (3 * 2 ^ 61 - 1) 1].

End Overflow.

Module Scenario.

Import TestArray.

(** The edits of [TestArray], from the leaf [hello] at position 0. *)
Definition script : list (edit ascii) :=
  [ NewLeaf 0 (str "j");   DoSplice 0 0 1 1;     (* 2: jello *)
    NewLeaf 0 (str "imb"); DoSplice 2 1 3 3;     (* 4: jimbo *)
    DoSlice 4 2 2;                               (* 5: mb *)
    NewLeaf 0 (str "n");   DoSplice 4 2 2 6;     (* 7: jino *)
    NewLeaf 0 (str "va");  DoSplice 7 4 0 8;     (* 9: jinova *)
    NewLeaf 0 (str "d");   DoSplice 10 1 0 7;    (* 11: djino *)
    DoSplice 11 5 0 9 ].                         (* 12: djinojinova *)

Definition expected : list (list ascii) :=
  map str ["hello"; "j"; "jello"; "imb"; "jimbo"; "mb"; "n"; "jino";
           "va"; "jinova"; "d"; "djino"; "djinojinova"]%string.

End Scenario.

(** ** What the limit counts, and what the traversal does not read *)

Section Nesting.

Context {A : Type}.

(** How many nodes are nested along [Value]: 0 when the value is a
    payload (or nil). *)
Fixpoint depth (a : Array A) : Z :=
  match a with
  | mkArray _ _ v _ _ _ =>
      match v with
      | VArray b => 1 + depth b
      | _ => 0
      end
  end.

(** The same node with every [Limit], at every level, set to 0. *)
Fixpoint forget_limits (a : Array A) : Array A :=
  match a with
  | mkArray _ n v o rc rep =>
      mkArray 0 n (vforget_limits v) o rc
        match rep with
        | Some r => Some (forget_limits r)
        | None => None
        end
  end
with vforget_limits (v : value A) : value A :=
  match v with
  | VArray a => VArray (forget_limits a)
  | other => other
  end.

(** What a caller of [ForEach] can observe of a traversal: the calls
    made to the callback and the panic that ended it, if any. *)
Definition observable (t : trace A) : list (list A * Z) * option panic :=
  (calls (fst t), snd t).

End Nesting.

(** ** The string reference of the test-suite

    [type Slicer string] comes with its own eager [Splice],
    [s[:offset] + r + s[offset+count:]], the expression
    [TestRandomSplices] and [BenchmarkString] also apply to their plain
    string.  A string is the list of its bytes. *)

Section StringSplice.

Context {A : Type}.

Local Abbreviation len l := (Z.of_nat (List.length l)) (only parsing).

(** Go's slice expression [s[lo:hi]]: panics unless
    [0 <= lo <= hi <= len(s)]. *)
Definition go_slice (s : list A) (lo hi : Z) : result (list A) :=
  if (0 <=? lo) && (lo <=? hi) && (hi <=? len s)
  then Ok (sub_list s lo (hi - lo))
  else Panic (SliceBounds (len s) lo (hi - lo)).

(** [s[:offset] + r + s[offset+count:]], operands evaluated from left
    to right. *)
Definition string_splice (s : list A) (offset count : Z) (r : list A)
    : result (list A) :=
  match go_slice s 0 offset with
  | Panic e => Panic e
  | Ok h =>
      match go_slice s (add offset count) (len s) with
      | Panic e => Panic e
      | Ok t => Ok (h ++ r ++ t)
      end
  end.

(** [func (s Slicer) Splice(offset, count int, replacement interface{})]:
    [r := replacement.(Slicer)], then the string splice. *)
Definition Slicer_Splice (s : list A) (offset count : Z)
    (replacement : value A) : result (list A) :=
  match replacement with
  | VSlicer r => string_splice s offset count r
  | _ => Panic NotASlicer
  end.

End StringSplice.

(** ** The randomized test and the benchmarks

    [benchmarkRun] drives a pair of closures [init] and [splice] with
    random windows.  The closures update variables they capture; here
    they pass that state along.  A run continues, is stopped by
    [t.Fatal], or panics. *)

Inductive test_panic : Type :=
| LazyPanic (p : panic)            (* a panic of the package or of a slice expression *)
| InvalidIntn (n : Z)              (* rand.Intn(n) with n <= 0 *)
| IndexRange (i n : Z)             (* s[i] with i outside [0, n) *)
| MakeLen (n : Z)                  (* make([]byte, n) with n out of range *)
| GrowNegative (n : Z).            (* strings.Builder.Grow(n) with n < 0 *)

Inductive outcome (T : Type) : Type :=
| Continue (x : T)
| Fatal
| Panics (p : test_panic).

Arguments Continue {T} x.
Arguments Fatal {T}.
Arguments Panics {T} p.

Definition bind {S T} (m : outcome S) (k : S -> outcome T) : outcome T :=
  match m with
  | Continue x => k x
  | Fatal => Fatal
  | Panics p => Panics p
  end.

Declare Scope outcome_scope.
Delimit Scope outcome_scope with outcome.
Bind Scope outcome_scope with outcome.

Notation "x <- m ;; k" := (bind m (fun x => k))
  (at level 61, m at next level, right associativity) : outcome_scope.
Notation "' pat <- m ;; k" :=
  (bind m (fun x => match x with pat => k end))
  (at level 61, pat pattern, m at next level, right associativity)
  : outcome_scope.

Definition lift {T} (r : result T) : outcome T :=
  match r with
  | Ok x => Continue x
  | Panic p => Panics (LazyPanic p)
  end.

(** [a.ForEach(func(v interface{}, _ int) { s += v.(Slicer) })],
    starting from the empty string: what [toString] and the flattening
    steps compute. *)
Definition collect (a : Array ascii) : outcome (list ascii) :=
  match ForEach a with
  | (es, None) => Continue (segments es)
  | (_, Some p) => Panics (LazyPanic p)
  end.

(** [limit := 10] *)
Definition limit : Z := 10.

(** [lazy.Array{Limit: limit, Count: len(r), Value: Slicer(r)}] *)
Definition limited (r : list ascii) : Array ascii := leaf limit r.

(** What the closures of [TestRandomSplices] and [BenchmarkLazy] keep
    true of their array [a]: it is built through the API, counts [size]
    elements, and its limit and nesting depth add up to [limit], the
    limit staying positive. *)
Definition budgeted (a : Array ascii) (size : Z) : Prop :=
  built_below cap a /\ Count a = size /\
  Limit a + depth a = limit /\ 1 <= Limit a.

Local Open Scope outcome_scope.

(** The closures of [TestRandomSplices]; their state is the pair of
    the lazy array [a] and the string [s]. *)
Definition TestRandomSplices_init (str : list ascii)
    : Array ascii * list ascii :=
  (limited str, str).

Definition TestRandomSplices_splice (st : Array ascii * list ascii)
    (offset count : Z) (r : list ascii)
    : outcome (Array ascii * list ascii) :=
  let (a, s) := st in
  s <- lift (string_splice s offset count r) ;;
  a <- lift (Splice a offset count (limited r)) ;;
  a <- (if Limit a <=? 0
        then s' <- collect a ;;
             Continue (mkArray limit (Z.of_nat (length s')) (VSlicer s') 0 0 None)
        else Continue a) ;;
  x <- collect a ;;
  if list_eq_dec ascii_dec x s then Continue (a, s)
  else (* the arguments of [t.Fatal] *)
    a6 <- lift (Slice a 0 6) ;;
    _ <- collect a6 ;;
    Fatal.

(** The closures of [BenchmarkLazy]: the flattened node takes its count
    from [a.Count]. *)
Definition BenchmarkLazy_init (str : list ascii) : Array ascii :=
  limited str.

Definition BenchmarkLazy_splice (a : Array ascii) (offset count : Z)
    (r : list ascii) : outcome (Array ascii) :=
  a <- lift (Splice a offset count (limited r)) ;;
  if Limit a <=? 0
  then _ <- (if Count a <? 0 then Panics (GrowNegative (Count a))
             else Continue tt) ;;
       s <- collect a ;;
       Continue (mkArray limit (Count a) (VSlicer s) 0 0 None)
  else Continue a.

(** The closures of [BenchmarkString]. *)
Definition BenchmarkString_init (str : list ascii) : list ascii := str.

Definition BenchmarkString_splice (s : list ascii) (offset count : Z)
    (r : list ascii) : outcome (list ascii) :=
  lift (string_splice s offset count r).

(** [const letters] *)
Definition letters : list ascii :=
  list_ascii_of_string "abcdefghijklmnopqrstuvwxyzABCDEFGHIJKLMNOPQRSTUVWXYZ".

(** [string([]rune{'a' + rune(x)})]: one byte, for the values
    [rand.Intn(26)] answers. *)
Definition randAlpha (x : Z) : list ascii :=
  [ascii_of_N (Z.to_N (97 + x))].

Section Random.

(** The state of [math/rand]'s generator, the state [rand.Seed(42)]
    sets, and the answer of [rand.Intn] together with the next state. *)
Variable rng : Type.
Variable seeded : rng.
Variable Intn : rng -> Z -> Z * rng.

(** The largest length [make] accepts for a [[]byte]: the runtime's
    [maxAlloc], [2^48] on amd64. *)
Variable maxAlloc : Z.

(** [rand.Intn(n)] panics unless [0 < n]. *)
Definition rand_Intn (g : rng) (n : Z) : outcome (Z * rng) :=
  if 0 <? n then Continue (Intn g n) else Panics (InvalidIntn n).

(** The loop of [initRandomString], after [make([]byte, size)]. *)
Fixpoint random_bytes (n : nat) (g : rng) : outcome (list ascii * rng) :=
  match n with
  | O => Continue ([], g)
  | S n =>
      '(x, g) <- rand_Intn g (Z.of_nat (length letters)) ;;
      match (if 0 <=? x then nth_error letters (Z.to_nat x) else None) with
      | None => Panics (IndexRange x (Z.of_nat (length letters)))
      | Some c =>
          '(b, g) <- random_bytes n g ;;
          Continue (c :: b, g)
      end
  end.

(** [initRandomString(size)]: answers the new [largeRandomString].
    [make([]byte, size)] panics with [len out of range] when [size] is
    negative or exceeds [maxAlloc]. *)
Definition initRandomString (size : Z) : outcome (list ascii) :=
  if (size <? 0) || (maxAlloc <? size) then Panics (MakeLen size)
  else '(b, _) <- random_bytes (Z.to_nat size) seeded ;;
       Continue b.

(** The body of the loop of [benchmarkRun], [n] times. *)
Fixpoint iterate {S : Type}
    (splice : S -> Z -> Z -> list ascii -> outcome S)
    (n : nat) (st : S) (size : Z) (g : rng) : outcome (S * Z) :=
  match n with
  | O => Continue (st, size)
  | S n =>
      '(x, g) <- rand_Intn g 26 ;;
      let v := randAlpha x in
      '(offset, g) <- (if 0 <? size then rand_Intn g size
                       else Continue (0, g)) ;;
      let diff := sub size offset in
      let diff := if 100 <? diff then 100 else diff in
      '(count, g) <- (if 0 <? diff then rand_Intn g diff
                      else Continue (0, g)) ;;
      st <- splice st offset count v ;;
      iterate splice n st (add size (sub 1 count)) g
  end.

(** [benchmarkRun(iter, init, splice)], with [str] the value of
    [largeRandomString]; answers the final state and [size]. *)
Definition benchmarkRun {S : Type} (iter : Z) (init : list ascii -> S)
    (splice : S -> Z -> Z -> list ascii -> outcome S) (str : list ascii)
    : outcome (S * Z) :=
  iterate splice (Z.to_nat iter) (init str) (Z.of_nat (length str)) seeded.

(** [for n := 0; n < b.N; n++ { benchmarkRun(100, init, splice) }] *)
Fixpoint repeat_runs {S : Type} (n : nat) (init : list ascii -> S)
    (splice : S -> Z -> Z -> list ascii -> outcome S) (str : list ascii)
    : outcome unit :=
  match n with
  | O => Continue tt
  | S n =>
      _ <- benchmarkRun 100 init splice str ;;
      repeat_runs n init splice str
  end.

Definition benchmark {S : Type} (N : Z) (init : list ascii -> S)
    (splice : S -> Z -> Z -> list ascii -> outcome S) (str : list ascii)
    : outcome unit :=
  repeat_runs (Z.to_nat N) init splice str.

(** [TestRandomSplices]: [initRandomString(10)], the run of 500000
    splices, and then the deferred [initRandomString(strlen)]. *)
Definition TestRandomSplices (strlen : Z) : outcome unit :=
  let body := str <- initRandomString 10 ;;
              benchmarkRun 500000 TestRandomSplices_init
                TestRandomSplices_splice str in
  match body with
  | Continue _ => _ <- initRandomString strlen ;; Continue tt
  | Fatal => _ <- initRandomString strlen ;; Fatal
  | Panics p => _ <- initRandomString strlen ;; Panics p
  end.

Definition BenchmarkLazy (N : Z) (largeRandomString : list ascii)
    : outcome unit :=
  benchmark N BenchmarkLazy_init BenchmarkLazy_splice largeRandomString.

Definition BenchmarkString (N : Z) (largeRandomString : list ascii)
    : outcome unit :=
  benchmark N BenchmarkString_init BenchmarkString_splice largeRandomString.

End Random.

(** ** Induction over nodes and the values they hold *)

Section ArrayInduction.

Context {A : Type}.
Variables (P : Array A -> Prop) (Q : value A -> Prop).

Hypothesis plain_case :
  forall l n v o rc, Q v -> P (mkArray l n v o rc None).
Hypothesis splice_case :
  forall l n v o rc r, Q v -> P r -> P (mkArray l n v o rc (Some r)).
Hypothesis nil_case : Q VNil.
Hypothesis slicer_case : forall s, Q (VSlicer s).
Hypothesis array_case : forall a, P a -> Q (VArray a).

Fixpoint Array_value_ind (a : Array A) : P a :=
  match a with
  | mkArray l n v o rc rep =>
      match rep with
      | None => plain_case l n v o rc (value_Array_ind v)
      | Some r =>
          splice_case l n v o rc r (value_Array_ind v) (Array_value_ind r)
      end
  end
with value_Array_ind (v : value A) : Q v :=
  match v with
  | VNil => nil_case
  | VSlicer s => slicer_case s
  | VArray a => array_case a (Array_value_ind a)
  end.

End ArrayInduction.

(** * Properties *)

(** ** The scenario of [TestArray] *)

Section TestArrayRuns.

Import TestArray.

Example test_strings :
  map toString [hello; jello; jimbo; jino; jinova; djino; djinojinova]
  = map (fun s => Some (str s))
      ["hello"; "jello"; "jimbo"; "jino"; "jinova"; "djino";
       "djinojinova"]%string.
Proof. vm_compute. reflexivity. Qed.

Example test_slices :
  (toString (get nothing (Slice nothing 0 0)),
   toString (get nothing (Slice hello 3 0)),
   toString (get nothing (Slice hello 0 4)),
   toString (get nothing (Slice jimbo 2 2)))
  = (Some [], Some [], Some (str "hell"), Some (str "mb")).
Proof. vm_compute. reflexivity. Qed.

Example test_invalid :
  (Slice (newArray "hello") (-1) 4, Slice (newArray "hello") 1 (-2),
   Slice (newArray "hello") 3 20)
  = (Panic InvalidSliceArgs, Panic InvalidSliceArgs,
     Panic InvalidSliceArgs)
  /\ (Splice (newArray "hello") (-1) 4 (newArray "replace"),
      Splice (newArray "hello") 1 (-2) (newArray "replace"),
      Splice (newArray "hello") 3 20 (newArray "replace"))
     = (Panic InvalidSpliceArgs, Panic InvalidSpliceArgs,
        Panic InvalidSpliceArgs).
Proof. split; vm_compute; reflexivity. Qed.

End TestArrayRuns.

(** ** Arithmetic of [int] *)

Lemma wrap_small z : in_range z -> wrap z = z.
Proof.
  unfold in_range, min_int, max_int, wrap. intros H.
  rewrite Z.mod_small by lia. lia.
Qed.

Lemma wrap_range z : in_range (wrap z).
Proof.
  unfold in_range, min_int, max_int, wrap.
  pose proof (Z.mod_pos_bound (z + 2 ^ 63) (2 ^ 64) ltac:(lia)). lia.
Qed.

Lemma add_small x y : in_range (x + y) -> add x y = x + y.
Proof. apply wrap_small. Qed.

Lemma sub_small x y : in_range (x - y) -> sub x y = x - y.
Proof. apply wrap_small. Qed.

Lemma wrap_high z : max_int < z <= 2 * max_int -> wrap z = z - 2 ^ 64.
Proof.
  unfold max_int, wrap. intros H.
  replace (z + 2 ^ 63) with (z + 2 ^ 63 - 2 ^ 64 + 1 * 2 ^ 64) by lia.
  rewrite Z.mod_add by lia. rewrite Z.mod_small by lia. lia.
Qed.

Lemma cap_int_cap : cap <= int_cap.
Proof. unfold cap, int_cap. lia. Qed.

(** Replaces the wrapping operations of the goal by the exact ones, when
    [lia] finds their result in range. *)
Ltac unwrap :=
  repeat match goal with
    | |- context [add ?x ?y] =>
        rewrite (add_small x y)
          by (unfold in_range, min_int, max_int, cap, int_cap in *; lia)
    | |- context [sub ?x ?y] =>
        rewrite (sub_small x y)
          by (unfold in_range, min_int, max_int, cap, int_cap in *; lia)
    end.

(** ** Windows of lists *)

Section SubList.

Context {A : Type}.
Implicit Types l s : list A.

Local Abbreviation len l := (Z.of_nat (List.length l)) (only parsing).

Lemma sub_list_empty l off cnt : cnt <= 0 -> sub_list l off cnt = [].
Proof.
  intros H. unfold sub_list. replace (Z.to_nat cnt) with O by lia.
  reflexivity.
Qed.

Lemma len_sub_list l off cnt :
  0 <= off -> 0 <= cnt -> off + cnt <= len l ->
  len (sub_list l off cnt) = cnt.
Proof.
  intros. unfold sub_list. rewrite length_firstn, length_skipn. lia.
Qed.

Lemma sub_list_all l : sub_list l 0 (len l) = l.
Proof.
  unfold sub_list. simpl. rewrite Nat2Z.id. apply firstn_all.
Qed.

Lemma sub_list_firstn l k off cnt :
  0 <= off -> 0 <= cnt -> off + cnt <= k ->
  sub_list (firstn (Z.to_nat k) l) off cnt = sub_list l off cnt.
Proof.
  intros. unfold sub_list.
  rewrite skipn_firstn_comm, firstn_firstn. f_equal. lia.
Qed.

Lemma sub_list_sub_list l a b off cnt :
  0 <= a -> 0 <= off -> 0 <= cnt -> off + cnt <= b ->
  sub_list (sub_list l a b) off cnt = sub_list l (a + off) cnt.
Proof.
  intros. unfold sub_list.
  rewrite skipn_firstn_comm, firstn_firstn, skipn_skipn.
  f_equal; [lia | f_equal; lia].
Qed.

Lemma firstn_min_length l (n : nat) :
  firstn n l = firstn (Nat.min n (length l)) l.
Proof.
  destruct (Nat.le_ge_cases n (length l)).
  - now rewrite Nat.min_l.
  - rewrite Nat.min_r, firstn_all by assumption. now apply firstn_all2.
Qed.

Lemma firstn_clip l (n m : nat) :
  Nat.min n (length l) = Nat.min m (length l) -> firstn n l = firstn m l.
Proof.
  intros H.
  rewrite (firstn_min_length l n), (firstn_min_length l m). now rewrite H.
Qed.

(** A window of a concatenation is the window's part in the first
    list followed by its part in the second. *)
Lemma sub_list_app l1 l2 off cnt :
  0 <= off -> 0 <= cnt ->
  sub_list (l1 ++ l2) off cnt =
    sub_list l1 off (Z.min cnt (len l1 - off))
    ++ sub_list l2 (off - len l1) (cnt - Z.max 0 (len l1 - off)).
Proof.
  intros. unfold sub_list.
  rewrite skipn_app, firstn_app, length_skipn.
  f_equal.
  - apply firstn_clip. rewrite length_skipn. lia.
  - f_equal; [lia | f_equal; lia].
Qed.

Lemma firstn_sub_list l k : firstn (Z.to_nat k) l = sub_list l 0 k.
Proof. reflexivity. Qed.

End SubList.


(** ** Well-formed nodes: counts and contents *)

Section WellFormed.

Context {A : Type}.
Variable B : Z.
Implicit Types (a r : Array A) (v : value A).

Local Abbreviation len l := (Z.of_nat (List.length l)) (only parsing).
Local Abbreviation wf := (wf_below B) (only parsing).
Local Abbreviation provides := (provides_below B) (only parsing).

Lemma wf_Count_nonneg a : wf a -> 0 <= Count a.
Proof.
  apply (Array_value_ind (fun a => wf a -> 0 <= Count a) (fun _ => True));
    simpl; auto.
  - intros; lia.
  - intros l n v o rc r _ IH (Hr & H). specialize (IH Hr). lia.
Qed.

Lemma wf_Count_below a : wf a -> Count a < B.
Proof.
  destruct a as [l n v o rc [r|]]; simpl; intros; lia.
Qed.

(** The content of a well-formed node has [Count] elements. *)
Lemma len_contents a : wf a -> len (contents a) = Count a.
Proof.
  apply (Array_value_ind
           (fun a => wf a -> len (contents a) = Count a)
           (fun v => forall k, provides v k -> 0 <= k -> k <= len (vcontents v))).
  - intros l n v o rc IH (Ho & Hn & Hc & Hv). simpl.
    specialize (IH _ Hv ltac:(lia)). apply len_sub_list; lia.
  - intros l n v o rc r IHv IHr (Hr & Ho & Hrc & Hb & Hc & Hn & Hv). simpl.
    specialize (IHv _ Hv ltac:(lia)). specialize (IHr Hr).
    rewrite !length_app, length_firstn, !Nat2Z.inj_add.
    rewrite len_sub_list by lia. lia.
  - simpl. intros. lia.
  - simpl. intros. lia.
  - simpl. intros a' IH k (Hw & Hk) _. rewrite IH by assumption. lia.
Qed.

Lemma provides_len v k : provides v k -> 0 <= k -> k <= len (vcontents v).
Proof.
  destruct v as [|s|a]; simpl; intros H Hk; try lia.
  destruct H as (Hw & H). rewrite len_contents by assumption. lia.
Qed.

End WellFormed.

(** A node well formed below a bound is well formed below any larger
    one. *)
Lemma wf_below_mono {A} (B B' : Z) (a : Array A) :
  B <= B' -> wf_below B a -> wf_below B' a.
Proof.
  intros HB.
  apply (Array_value_ind
           (fun a => wf_below B a -> wf_below B' a)
           (fun v => forall k, provides_below B v k -> provides_below B' v k));
    simpl.
  - intros l n v o rc IH (Ho & Hn & Hc & Hv). repeat split; auto; lia.
  - intros l n v o rc r IHv IHr (Hr & Ho & Hrc & Hb & Hc & Hn & Hv).
    repeat split; auto; lia.
  - auto.
  - auto.
  - intros a' IH k (Hw & Hk). auto.
Qed.


(** ** The traversal of a well-formed node *)

Section Traversal.

Context {A : Type}.
Implicit Types (a r : Array A) (v : value A) (es : list (event A)).

Local Abbreviation len l := (Z.of_nat (List.length l)) (only parsing).

(** Without wrap-around, [intersect] is the overlap of [[o1, o1+c1)] and
    [[o2, o2+c2)], or [(0, 0)] when they do not overlap. *)
Lemma intersect_exact o1 c1 o2 c2 :
  0 <= o1 -> 0 <= c1 -> o1 + c1 < cap ->
  0 <= o2 -> 0 <= c2 -> o2 + c2 <= 2 * cap - 1 ->
  intersect o1 c1 o2 c2 =
    if Z.max o1 o2 <? Z.min (o1 + c1) (o2 + c2)
    then (Z.max o1 o2, Z.min (o1 + c1) (o2 + c2) - Z.max o1 o2)
    else (0, 0).
Proof.
  intros. unfold intersect. unwrap.
  destruct (Z.ltb_spec o1 o2), (Z.ltb_spec (o2 + c2) (o1 + c1));
    repeat match goal with
      | |- context [?x <? ?y] => destruct (Z.ltb_spec x y)
      end; try (exfalso; lia); unwrap; try reflexivity; f_equal; lia.
Qed.

Lemma sub_list_same (l : list A) o c o' c' :
  Z.to_nat o = Z.to_nat o' -> Z.to_nat c = Z.to_nat c' ->
  sub_list l o c = sub_list l o' c'.
Proof. unfold sub_list. now intros -> ->. Qed.

(** A window of [h ++ m ++ t], zone by zone. *)
Lemma sub_list_app3 (h m t : list A) off cnt :
  0 <= off -> 0 <= cnt ->
  sub_list (h ++ m ++ t) off cnt =
    sub_list h off (Z.min (off + cnt) (len h) - off)
    ++ sub_list m (Z.max off (len h) - len h)
         (Z.min (off + cnt) (len h + len m) - Z.max off (len h))
    ++ sub_list t (Z.max off (len h + len m) - (len h + len m))
         (off + cnt - Z.max off (len h + len m)).
Proof.
  intros Hoff Hcnt. rewrite sub_list_app by assumption. f_equal.
  - apply sub_list_same; lia.
  - destruct (Z_le_gt_dec (cnt - Z.max 0 (len h - off)) 0) as [Hempty|Hsome].
    + rewrite !sub_list_empty by lia. reflexivity.
    + rewrite (sub_list_same (m ++ t) _ _ (Z.max off (len h) - len h)
                 (cnt - Z.max 0 (len h - off))) by lia.
      rewrite sub_list_app by lia. f_equal.
      * destruct (Z_le_gt_dec
                    (Z.min (off + cnt) (len h + len m) - Z.max off (len h)) 0).
        -- rewrite !sub_list_empty by lia. reflexivity.
        -- apply sub_list_same; lia.
      * destruct (Z_le_gt_dec (off + cnt - Z.max off (len h + len m)) 0).
        -- rewrite !sub_list_empty by lia. reflexivity.
        -- apply sub_list_same; lia.
Qed.

Lemma sub_list_piece (l : list A) o c o' c' :
  (c <= 0 /\ c' <= 0) \/ (Z.to_nat o = Z.to_nat o' /\ c = c') ->
  sub_list l o c = sub_list l o' c'.
Proof.
  intros [[H H']|[H ->]].
  - now rewrite !sub_list_empty.
  - now apply sub_list_same.
Qed.

(** The result of [intersect], as the traversal uses it: the overlap
    when there is one, and a zero count otherwise. *)
Lemma intersect_cases o1 c1 o2 c2 :
  0 <= o1 -> 0 <= c1 -> o1 + c1 < cap ->
  0 <= o2 -> 0 <= c2 -> o2 + c2 <= 2 * cap - 1 ->
  exists s c,
    intersect o1 c1 o2 c2 = (s, c) /\
    ((s = 0 /\ c = 0 /\ Z.min (o1 + c1) (o2 + c2) <= Z.max o1 o2) \/
     (s = Z.max o1 o2 /\ c = Z.min (o1 + c1) (o2 + c2) - Z.max o1 o2 /\
      0 < c)).
Proof.
  intros. rewrite intersect_exact by assumption.
  destruct (Z.ltb_spec (Z.max o1 o2) (Z.min (o1 + c1) (o2 + c2))).
  - eexists _, _. split; [reflexivity|]. right. lia.
  - exists 0, 0. split; [reflexivity|]. left. lia.
Qed.

(** The window [[off, off+cnt)] of the content of a node with a
    replacement, zone by zone: head, replacement, tail. *)
Lemma zones_of_window (vc cr : list A) o rc n off cnt :
  0 <= o -> 0 <= rc -> o + rc <= n - len cr + rc ->
  n - len cr + rc <= len vc ->
  0 <= off -> 0 <= cnt -> off + cnt <= n ->
  sub_list (firstn (Z.to_nat o) vc ++ cr
              ++ sub_list vc (o + rc) (n - len cr - o)) off cnt =
    sub_list vc off (Z.min (off + cnt) o - off)
    ++ sub_list cr (Z.max off o - o)
         (Z.min (off + cnt) (o + len cr) - Z.max off o)
    ++ sub_list vc (Z.max off (o + len cr) - len cr + rc)
         (off + cnt - Z.max off (o + len cr)).
Proof.
  intros. rewrite sub_list_app3 by assumption.
  assert (Hh : len (firstn (Z.to_nat o) vc) = o)
    by (rewrite length_firstn; lia).
  rewrite Hh. f_equal; [|f_equal].
  - destruct (Z_le_gt_dec (Z.min (off + cnt) o - off) 0).
    + now rewrite !sub_list_empty.
    + rewrite firstn_sub_list, sub_list_sub_list by lia.
      apply sub_list_same; lia.
  - destruct (Z_le_gt_dec (off + cnt - Z.max off (o + len cr)) 0).
    + now rewrite !sub_list_empty.
    + rewrite sub_list_sub_list by lia. apply sub_list_same; lia.
Qed.

(** *** Logs of composed traversals *)

Lemma event_ok_incl (L L' : list (list A)) e :
  incl L L' -> event_ok L e -> event_ok L' e.
Proof.
  intros HL. destruct e; simpl; auto.
  intros (Hin & H). split; auto.
Qed.

Lemma runs_to_incl t (L L' : list (list A)) x k :
  incl L L' -> runs_to t L x k -> runs_to t L' x k.
Proof.
  intros HL (es & -> & Hok & Hx & Hk). exists es. repeat split; auto.
  eapply Forall_impl; [|exact Hok]. intros e. now apply event_ok_incl.
Qed.

Lemma calls_app es1 es2 : calls (es1 ++ es2) = calls es1 ++ calls es2.
Proof.
  induction es1 as [|[n o c|s o c seg] es1 IH]; simpl; auto.
  now rewrite IH.
Qed.

Lemma segments_app es1 es2 :
  segments (es1 ++ es2) = segments es1 ++ segments es2.
Proof. unfold segments. now rewrite calls_app, map_app, concat_app. Qed.

Lemma total_app es1 es2 : total (es1 ++ es2) = total es1 + total es2.
Proof.
  unfold total. rewrite calls_app, map_app.
  induction (map snd (calls es1)) as [|z zs IH]; simpl; lia.
Qed.

Lemma runs_to_done (L : list (list A)) : runs_to done L [] 0.
Proof. exists []. repeat split; auto. Qed.

Lemma runs_to_emit t (L : list (list A)) x k n off cnt :
  window_ok n off cnt -> runs_to t L x k ->
  runs_to (emit (Window n off cnt) t) L x k.
Proof.
  intros Hw (es & -> & Hok & Hx & Hk). exists (Window n off cnt :: es).
  repeat split; auto.
Qed.

Lemma runs_to_andThen t1 t2 (L : list (list A)) x1 x2 k1 k2 :
  runs_to t1 L x1 k1 -> runs_to t2 L x2 k2 ->
  runs_to (andThen t1 t2) L (x1 ++ x2) (k1 + k2).
Proof.
  intros (es1 & -> & Hok1 & Hx1 & Hk1) (es2 & -> & Hok2 & Hx2 & Hk2).
  exists (es1 ++ es2). simpl. repeat split.
  - apply Forall_app; auto.
  - rewrite segments_app. congruence.
  - rewrite total_app. congruence.
Qed.

(** *** A payload answers an in-range request *)

Lemma Slicer_Slice_fits (s : list A) off cnt :
  0 <= off -> 0 <= cnt -> off + cnt <= len s -> off + cnt < 2 ^ 63 ->
  Slicer_Slice s off cnt = Ok (sub_list s off cnt).
Proof.
  intros. unfold Slicer_Slice. unwrap.
  destruct (Z.leb_spec 0 off); try lia.
  destruct (Z.leb_spec off (off + cnt)); try lia.
  destruct (Z.leb_spec (off + cnt) (len s)); try lia.
  simpl. do 2 f_equal. lia.
Qed.

Lemma runs_to_eq t (L : list (list A)) x x' k k' :
  runs_to t L x k -> x = x' -> k = k' -> runs_to t L x' k'.
Proof. now intros H <- <-. Qed.

(** *** Soundness of the traversal

    On a well-formed node, a window that is empty or in bounds is
    traversed to completion: the segments visited are exactly that
    window of the node's content, from left to right. *)

Lemma plain_sound l n v o rc :
  forEach_correct v -> Array_forEach_correct (mkArray l n v o rc None).
Proof.
  intros IH (Ho & Hn & Hc & Hv) off cnt Hw. simpl in *.
  apply runs_to_emit; [assumption|].
  destruct (Z.eqb_spec cnt 0) as [->|Hcnt].
  - rewrite sub_list_empty by lia. apply runs_to_done.
  - destruct Hw as [?|(Hoff & Hpos & Hle)]; [contradiction|].
    unwrap. rewrite app_nil_r.
    eapply runs_to_eq;
      [apply (IH (o + n) Hv Hc); right; lia | | reflexivity].
    rewrite sub_list_sub_list by lia. reflexivity.
Qed.

Lemma splice_sound l n v o rc r :
  forEach_correct v -> Array_forEach_correct r ->
  Array_forEach_correct (mkArray l n v o rc (Some r)).
Proof.
  intros IHv IHr (Hr & Ho & Hrc & Hb & Hc & Hn & Hv) off cnt Hw.
  simpl in *.
  apply runs_to_emit; [assumption|].
  destruct (Z.eqb_spec cnt 0) as [->|Hcnt].
  { rewrite sub_list_empty by lia. apply runs_to_done. }
  destruct Hw as [?|(Hoff & Hpos & Hle)]; [contradiction|].
  pose proof (wf_Count_nonneg cap r Hr) as Hr0.
  pose proof (len_contents cap r Hr) as Hlen.
  pose proof (provides_len cap v _ Hv ltac:(lia)) as Hvc.
  unwrap.
  destruct (intersect_cases off cnt 0 o) as (o1 & c1 & -> & H1); try lia.
  destruct (intersect_cases off cnt o (Count r)) as (o2 & c2 & -> & H2);
    try lia.
  destruct (intersect_cases off cnt (o + Count r) n) as (o3 & c3 & -> & H3);
    try lia.
  unwrap.
  eapply runs_to_eq.
  - apply runs_to_andThen; [|apply runs_to_andThen].
    + eapply runs_to_incl;
        [|apply (IHv _ Hv Hc o1 c1); unfold window_ok; lia].
      apply incl_appl, incl_refl.
    + eapply runs_to_incl;
        [|apply (IHr Hr (o2 - o) c2); unfold window_ok; lia].
      apply incl_appr, incl_refl.
    + eapply runs_to_incl;
        [|apply (IHv _ Hv Hc (o3 - Count r + rc) c3);
          unfold window_ok; lia].
      apply incl_appl, incl_refl.
  - rewrite <- Hlen in *.
    rewrite zones_of_window by lia.
    f_equal; [|f_equal]; apply sub_list_piece; lia.
  - lia.
Qed.

Theorem traversal_correct a : Array_forEach_correct a.
Proof.
  apply (Array_value_ind Array_forEach_correct forEach_correct).
  - apply plain_sound.
  - apply splice_sound.
  - intros k Hk _ off cnt Hw. simpl in *. subst k.
    destruct (Z.eqb_spec cnt 0) as [->|Hcnt].
    + rewrite sub_list_empty by lia. apply runs_to_done.
    + unfold window_ok in Hw. lia.
  - intros s k Hk Hc off cnt Hw. simpl in *.
    destruct (Z.eqb_spec cnt 0) as [->|Hcnt].
    + rewrite sub_list_empty by lia. apply runs_to_done.
    + destruct Hw as [?|(Hoff & Hpos & Hle)]; [contradiction|].
      rewrite Slicer_Slice_fits by (unfold cap in *; lia).
      exists [Visit s off cnt (sub_list s off cnt)]. repeat split.
      * constructor; [|constructor]. simpl. repeat split; auto; lia.
      * unfold segments. simpl. apply app_nil_r.
      * unfold total. simpl. lia.
  - intros a' IH k (Hw' & Hk) Hc off cnt Hw. simpl in *.
    destruct (Z.eqb_spec cnt 0) as [->|Hcnt].
    + rewrite sub_list_empty by lia. apply runs_to_done.
    + apply IH; [assumption|]. unfold window_ok in *. lia.
Qed.

End Traversal.

(** ** The traversal of a node whose counts are ints *)

Section TraversalSafety.

Context {A : Type}.
Implicit Types (a r : Array A) (v : value A) (t : trace A).

Local Abbreviation len l := (Z.of_nat (List.length l)) (only parsing).

(** When the end [o2 + c2] of the zone wraps around, [intersect]
    answers [(0, 0)]; otherwise it answers the overlap, or [(0, 0)]. *)
Lemma intersect_safe o1 c1 o2 c2 :
  0 <= o1 -> 0 <= c1 -> o1 + c1 < int_cap ->
  0 <= o2 < int_cap -> 0 <= c2 < int_cap ->
  exists s c,
    intersect o1 c1 o2 c2 = (s, c) /\
    ((s = 0 /\ c = 0) \/
     (s = Z.max o1 o2 /\ c = Z.min (o1 + c1) (o2 + c2) - Z.max o1 o2 /\
      0 < c)).
Proof.
  intros H1 H2 H3 H4 H5. unfold intersect.
  rewrite (add_small o1 c1)
    by (unfold in_range, min_int, max_int, int_cap in *; lia).
  destruct (Z_le_gt_dec (o2 + c2) max_int) as [Hfit|Hwrap].
  - rewrite (add_small o2 c2)
      by (unfold in_range, min_int, max_int, int_cap in *; lia).
    destruct (Z.ltb_spec o1 o2), (Z.ltb_spec (o2 + c2) (o1 + c1));
      match goal with
      | |- context [?x <? ?y] => destruct (Z.ltb_spec x y)
      end;
      eexists _, _; (split; [reflexivity|]);
      first [left; split; [reflexivity|split; [reflexivity|lia]]
            |left; split; reflexivity
            |right; unwrap; lia].
  - assert (Hneg : add o2 c2 = o2 + c2 - 2 ^ 64)
      by (apply wrap_high; unfold max_int, int_cap in *; lia).
    rewrite Hneg.
    destruct (Z.ltb_spec (o2 + c2 - 2 ^ 64) (o1 + c1));
      [|unfold max_int, int_cap in *; lia].
    destruct (Z.ltb_spec (if o1 <? o2 then o2 else o1)
                (o2 + c2 - 2 ^ 64)) as [Hlt|_].
    + exfalso. destruct (o1 <? o2); unfold max_int, int_cap in *; lia.
    + exists 0, 0. split; [reflexivity|]. now left.
Qed.

Lemma runs_safely_incl t (L L' : list (list A)) :
  incl L L' -> runs_safely t L -> runs_safely t L'.
Proof.
  intros HL (es & -> & Hok). exists es. split; [reflexivity|].
  eapply Forall_impl; [|exact Hok]. intros e. now apply event_ok_incl.
Qed.

Lemma runs_safely_done (L : list (list A)) : runs_safely done L.
Proof. exists []. split; [reflexivity|constructor]. Qed.

Lemma runs_safely_emit t (L : list (list A)) n off cnt :
  window_ok n off cnt -> runs_safely t L ->
  runs_safely (emit (Window n off cnt) t) L.
Proof.
  intros Hw (es & -> & Hok). exists (Window n off cnt :: es).
  split; [reflexivity|]. now constructor.
Qed.

Lemma runs_safely_andThen t1 t2 (L : list (list A)) :
  runs_safely t1 L -> runs_safely t2 L -> runs_safely (andThen t1 t2) L.
Proof.
  intros (es1 & -> & Hok1) (es2 & -> & Hok2). exists (es1 ++ es2).
  split; [reflexivity|]. now apply Forall_app.
Qed.

Lemma plain_safe l n v o rc :
  forEach_safe v -> Array_forEach_safe (mkArray l n v o rc None).
Proof.
  intros IH (Ho & Hn & Hc & Hv) off cnt Hw. simpl in *.
  apply runs_safely_emit; [assumption|].
  destruct (Z.eqb_spec cnt 0) as [->|Hcnt]; [apply runs_safely_done|].
  destruct Hw as [?|(Hoff & Hpos & Hle)]; [contradiction|].
  unwrap. rewrite app_nil_r.
  apply (IH (o + n) Hv Hc). right. lia.
Qed.

Lemma splice_safe l n v o rc r :
  forEach_safe v -> Array_forEach_safe r ->
  Array_forEach_safe (mkArray l n v o rc (Some r)).
Proof.
  intros IHv IHr (Hr & Ho & Hrc & Hb & Hc & Hn & Hv) off cnt Hw.
  simpl in *.
  apply runs_safely_emit; [assumption|].
  destruct (Z.eqb_spec cnt 0) as [->|Hcnt]; [apply runs_safely_done|].
  destruct Hw as [?|(Hoff & Hpos & Hle)]; [contradiction|].
  pose proof (wf_Count_nonneg int_cap r Hr) as Hr0.
  unwrap.
  destruct (intersect_safe off cnt 0 o) as (o1 & c1 & -> & H1); try lia.
  destruct (intersect_safe off cnt o (Count r)) as (o2 & c2 & -> & H2);
    try lia.
  destruct (intersect_safe off cnt (o + Count r) n) as (o3 & c3 & -> & H3);
    try lia.
  unwrap.
  apply runs_safely_andThen; [|apply runs_safely_andThen].
  - eapply runs_safely_incl;
      [|apply (IHv _ Hv Hc o1 c1); unfold window_ok; lia].
    apply incl_appl, incl_refl.
  - eapply runs_safely_incl;
      [|apply (IHr Hr (o2 - o) c2); unfold window_ok; lia].
    apply incl_appr, incl_refl.
  - eapply runs_safely_incl;
      [|apply (IHv _ Hv Hc (o3 - Count r + rc) c3);
        unfold window_ok; lia].
    apply incl_appl, incl_refl.
Qed.

(** On a node well formed below [int_cap], a window that is empty or in
    bounds is traversed without panic, through windows and requests
    that are all in bounds. *)
Theorem traversal_safe a : Array_forEach_safe a.
Proof.
  apply (Array_value_ind Array_forEach_safe forEach_safe).
  - apply plain_safe.
  - apply splice_safe.
  - intros k Hk _ off cnt Hw. simpl in *. subst k.
    destruct (Z.eqb_spec cnt 0) as [->|Hcnt]; [apply runs_safely_done|].
    unfold window_ok in Hw. lia.
  - intros s k Hk Hc off cnt Hw. simpl in *.
    destruct (Z.eqb_spec cnt 0) as [->|Hcnt]; [apply runs_safely_done|].
    destruct Hw as [?|(Hoff & Hpos & Hle)]; [contradiction|].
    rewrite Slicer_Slice_fits by (unfold int_cap in *; lia).
    exists [Visit s off cnt (sub_list s off cnt)].
    split; [reflexivity|].
    constructor; [|constructor]. simpl. repeat split; auto; lia.
  - intros a' IH k (Hw' & Hk) Hc off cnt Hw. simpl in *.
    destruct (Z.eqb_spec cnt 0) as [->|Hcnt]; [apply runs_safely_done|].
    apply IH; [assumption|]. unfold window_ok in *. lia.
Qed.

End TraversalSafety.

(** ** Slice and Splice on well-formed nodes *)

Section Construction.

Context {A : Type}.
Variable B : Z.
Hypothesis B_int : B <= int_cap.
Implicit Types (a r b : Array A) (v : value A).

Local Abbreviation len l := (Z.of_nat (List.length l)) (only parsing).
Local Abbreviation wf := (wf_below B) (only parsing).
Local Abbreviation provides := (provides_below B) (only parsing).

Lemma below_int_cap z : z < B -> z <= max_int.
Proof. unfold int_cap, max_int in *. lia. Qed.

(** The guard lets a window through when it is in bounds as integers. *)
Lemma bad_args_in_bounds a off cnt :
  Count a <= max_int -> in_bounds (Count a) off cnt ->
  bad_args a off cnt = false.
Proof.
  intros Hmax (Hoff & Hcnt & Hle). unfold bad_args.
  rewrite add_small by (unfold in_range, min_int, max_int in *; lia).
  destruct (Z.ltb_spec off 0), (Z.ltb_spec cnt 0),
    (Z.ltb_spec (Count a) (off + cnt)); simpl; try lia; reflexivity.
Qed.

Lemma provides_le v k k' : provides v k -> 0 < k' <= k -> provides v k'.
Proof.
  destruct v as [|s|a]; simpl; intros H Hk; try lia.
  destruct H. split; [assumption|lia].
Qed.

Lemma skipn_as_sub_list (l : list A) k n :
  len l <= k + n -> skipn (Z.to_nat k) l = sub_list l k n.
Proof.
  intros H. unfold sub_list. symmetry. apply firstn_all2.
  rewrite length_skipn. lia.
Qed.

(** On a node well formed below [B], an in-bounds [Slice] returns a node
    well formed below [B] that stands for the eager slice of the
    content. *)
Lemma Slice_refines a off cnt :
  wf a -> in_bounds (Count a) off cnt ->
  exists b, Slice a off cnt = Ok b /\ wf b /\ Count b = cnt /\
            contents b = eager_slice (contents a) off cnt.
Proof.
  intros Hwf Hin. pose proof Hin as (Hoff & Hcnt & Hle).
  pose proof (wf_Count_below B a Hwf) as Hcap.
  pose proof (below_int_cap _ Hcap) as Hmax.
  unfold Slice, eager_slice.
  rewrite bad_args_in_bounds by assumption.
  destruct ((off =? 0) && (cnt =? Count a)) eqn:Hid.
  { apply andb_true_iff in Hid as (->%Z.eqb_eq & ->%Z.eqb_eq).
    exists a. repeat split; auto.
    rewrite <- (len_contents B a Hwf). symmetry. apply sub_list_all. }
  assert (Hnid : ~ (off = 0 /\ cnt = Count a)).
  { intros (-> & ->). now rewrite !Z.eqb_refl in Hid. }
  destruct (Z.eqb_spec cnt 0) as [->|Hcnt0].
  { eexists. split; [reflexivity|]. simpl.
    rewrite !sub_list_empty by lia.
    repeat split; lia. }
  destruct a as [l n v o rc [r|]]; simpl in *.
  - eexists. split; [reflexivity|]. simpl. repeat split; auto; try lia; tauto.
  - destruct Hwf as (Ho & Hn & Hc & Hv). unwrap.
    eexists. split; [reflexivity|]. simpl. repeat split; try lia.
    + eapply provides_le; [exact Hv|lia].
    + now rewrite sub_list_sub_list by lia.
Qed.

(** On nodes well formed below [B], an in-bounds [Splice] whose result
    stays below [B] returns a node well formed below [B] that stands
    for the eager splice of the contents. *)
Lemma Splice_refines a off cnt r :
  wf a -> wf r -> in_bounds (Count a) off cnt ->
  Count a + (Count r - cnt) < B ->
  exists b, Splice a off cnt r = Ok b /\ wf b /\
            Count b = Count a + (Count r - cnt) /\
            contents b = eager_splice (contents a) off cnt (contents r).
Proof.
  intros Hwf Hwr Hin Hnew. pose proof Hin as (Hoff & Hcnt & Hle).
  pose proof (wf_Count_below B a Hwf) as Hcap.
  pose proof (wf_Count_below B r Hwr) as Hcapr.
  pose proof (wf_Count_nonneg B r Hwr) as Hr0.
  pose proof (len_contents B a Hwf) as Hlen.
  pose proof (below_int_cap _ Hcap) as Hmax.
  unfold Splice, eager_splice.
  rewrite bad_args_in_bounds by assumption.
  destruct ((off =? 0) && (cnt =? Count a)) eqn:Hid.
  - apply andb_true_iff in Hid as (->%Z.eqb_eq & ->%Z.eqb_eq).
    exists r. repeat split; auto; try lia.
    simpl. rewrite skipn_all2 by lia. now rewrite app_nil_r.
  - assert (Hnid : ~ (off = 0 /\ cnt = Count a)).
    { intros (-> & ->). now rewrite !Z.eqb_refl in Hid. }
    unwrap.
    destruct (negb (offset a =? 0) || is_some (replacement a)) eqn:Hnest.
    + eexists. split; [reflexivity|]. simpl.
      repeat split; auto; try lia.
      do 2 f_equal. symmetry. apply skipn_as_sub_list. lia.
    + apply orb_false_iff in Hnest as (Ho0 & Hrep).
      apply negb_false_iff, Z.eqb_eq in Ho0.
      destruct a as [l n v o rc [r0|]]; simpl in *; [discriminate|].
      subst o. destruct Hwf as (_ & Hn & Hc & Hv).
      eexists. split; [reflexivity|]. simpl.
      repeat split; auto; try lia.
      * replace (n + (Count r - cnt) - Count r + cnt) with (0 + n) by lia.
        exact Hv.
      * f_equal; [|f_equal].
        -- rewrite !firstn_sub_list, sub_list_sub_list by lia.
           reflexivity.
        -- rewrite (skipn_as_sub_list _ (off + cnt) (n - (off + cnt)))
             by (rewrite len_sub_list; try lia;
                 apply (provides_len B v) in Hv; lia).
           rewrite sub_list_sub_list by lia.
           apply sub_list_same; lia.
Qed.

End Construction.
(** ** Nodes built within range *)

Section Built.

Context {A : Type}.
Variable B : Z.
Hypothesis B_int : B <= int_cap.
Implicit Types (a r b : Array A).

Local Abbreviation len l := (Z.of_nat (List.length l)) (only parsing).

Lemma wf_zero : 0 < B -> wf_below B (@zero A).
Proof. simpl. lia. Qed.

Lemma wf_leaf limit n (s : list A) :
  0 <= n <= len s -> n < B ->
  wf_below B (mkArray limit n (VSlicer s) 0 0 None).
Proof. simpl. lia. Qed.

Lemma built_wf a : 0 < B -> built_below B a -> wf_below B a.
Proof.
  intros HB.
  induction 1 as [|limit n s Hn Hc|a off cnt b Ha IHa Hin Hb
                 |a off cnt r b Ha IHa Hr IHr Hin Hc Hb].
  - now apply wf_zero.
  - now apply wf_leaf.
  - destruct (Slice_refines B B_int a off cnt IHa Hin)
      as (b' & Hb' & Hwf & _).
    congruence.
  - destruct (Splice_refines B B_int a off cnt r IHa IHr Hin Hc)
      as (b' & Hb' & Hwf & _).
    congruence.
Qed.

Lemma built_api a : built_below B a -> api a.
Proof.
  induction 1 as [|limit n s Hn Hc|a off cnt b Ha IHa Hin Hb
                 |a off cnt r b Ha IHa Hr IHr Hin Hc Hb].
  - apply api_zero.
  - apply api_leaf; [assumption|]. now apply (below_int_cap B).
  - exact (api_Slice a off cnt b IHa Hb).
  - exact (api_Splice a off cnt r b IHa IHr Hb).
Qed.

(** What the content of a built node is: nothing for the zero value,
    the first [Count] elements of the payload for a leaf, and for the
    result of a [Slice] or [Splice] what the eager reference makes of
    the operands' contents. *)
Lemma contents_of_built :
  0 < B ->
  contents (@zero A) = [] /\
  (forall limit n (s : list A),
     contents (mkArray limit n (VSlicer s) 0 0 None)
     = firstn (Z.to_nat n) s) /\
  (forall a off cnt b,
     built_below B a -> in_bounds (Count a) off cnt ->
     Slice a off cnt = Ok b ->
     contents b = eager_slice (contents a) off cnt) /\
  (forall a off cnt r b,
     built_below B a -> built_below B r -> in_bounds (Count a) off cnt ->
     Count a + (Count r - cnt) < B -> Splice a off cnt r = Ok b ->
     contents b = eager_splice (contents a) off cnt (contents r)).
Proof.
  intros HB. repeat split.
  - intros a off cnt b Ha Hin Hs.
    destruct (Slice_refines B B_int a off cnt (built_wf a HB Ha) Hin)
      as (b' & Hb' & _ & _ & Hc).
    congruence.
  - intros a off cnt r b Ha Hr Hin Hcap Hs.
    destruct (Splice_refines B B_int a off cnt r (built_wf a HB Ha)
                (built_wf r HB Hr) Hin Hcap) as (b' & Hb' & _ & _ & Hc).
    congruence.
Qed.

(** On a well-formed node the offset of a slice is the exact sum. *)
Lemma Slice_offset_exact a off cnt :
  wf_below B a -> replacement a = None -> in_bounds (Count a) off cnt ->
  add (offset a) off = offset a + off.
Proof.
  intros Hwf Hrep (Hoff & Hcnt & Hle).
  destruct a as [l n v o rc [r|]]; simpl in *; [discriminate|].
  destruct Hwf as (Ho & Hn & Hc & _). now unwrap.
Qed.

End Built.

Lemma built_below_mono {A} (B B' : Z) (a : Array A) :
  B <= B' -> built_below B a -> built_below B' a.
Proof.
  intros HB.
  induction 1 as [|limit n s Hn Hc|a off cnt b Ha IHa Hin Hb
                 |a off cnt r b Ha IHa Hr IHr Hin Hc Hb].
  - apply built_zero.
  - apply built_leaf; [assumption|lia].
  - exact (built_Slice B' a off cnt b IHa Hin Hb).
  - apply (built_Splice B' a off cnt r b IHa IHr Hin); [lia|assumption].
Qed.

Section FullTraversal.

Context {A : Type}.
Implicit Types (a : Array A).

(** A full traversal of a node well formed below [cap] runs to
    completion and visits its content, all of it and in order. *)
Lemma ForEach_wf a :
  wf_below cap a -> runs_to (ForEach a) (leaves a) (contents a) (Count a).
Proof.
  intros Hwf. unfold ForEach.
  pose proof (wf_Count_nonneg cap a Hwf) as H0.
  eapply runs_to_eq;
    [apply (traversal_correct a Hwf 0 (Count a))| |reflexivity].
  - unfold window_ok. lia.
  - rewrite <- (len_contents cap a Hwf). apply sub_list_all.
Qed.

Lemma toString_wf a : wf_below cap a -> toString a = Some (contents a).
Proof.
  intros Hwf. destruct (ForEach_wf a Hwf) as (es & Hes & _ & Hseg & _).
  unfold toString. rewrite Hes. simpl. now rewrite <- Hseg.
Qed.

(** A full traversal of a node well formed below [int_cap] runs to
    completion, through windows and requests that are all in bounds. *)
Lemma ForEach_safe a :
  wf_below int_cap a -> runs_safely (ForEach a) (leaves a).
Proof.
  intros Hwf. unfold ForEach.
  pose proof (wf_Count_nonneg int_cap a Hwf) as H0.
  apply (traversal_safe a Hwf). unfold window_ok. lia.
Qed.

Lemma cap_pos : 0 < cap.
Proof. unfold cap. lia. Qed.

Lemma int_cap_pos : 0 < int_cap.
Proof. unfold int_cap. lia. Qed.

End FullTraversal.

(** ** The engine against the eager reference *)

Section Differential.

Context {A : Type}.
Implicit Types (a r b : Array A) (s : list A) (e : edit A).

Local Abbreviation len l := (Z.of_nat (List.length l)) (only parsing).

Lemma in_boundsb_spec n off cnt :
  in_boundsb n off cnt = true <-> in_bounds n off cnt.
Proof.
  unfold in_boundsb, in_bounds.
  rewrite !andb_true_iff, !Z.leb_le. tauto.
Qed.

Lemma len_eager_slice s off cnt :
  in_bounds (len s) off cnt -> len (eager_slice s off cnt) = cnt.
Proof. intros (? & ? & ?). now apply len_sub_list. Qed.

Lemma len_eager_splice s off cnt (r : list A) :
  in_bounds (len s) off cnt ->
  len (eager_splice s off cnt r) = len s + (len r - cnt).
Proof.
  intros (? & ? & ?). unfold eager_splice.
  rewrite !length_app, length_firstn, length_skipn. lia.
Qed.

Lemma run_extends {T} (step : list T -> edit A -> option T) es :
  forall h h', run step h es = Some h' -> exists t, h' = h ++ t.
Proof.
  induction es as [|e es IH]; simpl; intros h h' H.
  - exists []. rewrite app_nil_r. congruence.
  - destruct (step h e) as [x|]; [|discriminate].
    destruct (IH _ _ H) as (t & ->). exists (x :: t).
    now rewrite <- app_assoc.
Qed.

Lemma Forall2_nth_error {X Y} (R : X -> Y -> Prop) xs ys i y :
  Forall2 R xs ys -> nth_error ys i = Some y ->
  exists x, nth_error xs i = Some x /\ R x y.
Proof.
  intros H. revert i. induction H as [|x0 y0 xs ys Hxy H IH]; intros [|i];
    simpl; try discriminate.
  - intros [= ->]. eauto.
  - apply IH.
Qed.

Lemma Forall2_snoc {X Y} (R : X -> Y -> Prop) xs ys x y :
  Forall2 R xs ys -> R x y -> Forall2 R (xs ++ [x]) (ys ++ [y]).
Proof. intros. apply Forall2_app; auto. Qed.

Lemma stands_for_leaf limit s : len s < cap -> stands_for (leaf limit s) s.
Proof.
  intros H. split.
  - apply wf_leaf; lia.
  - simpl. apply sub_list_all.
Qed.

(** One edit: when the reference performs it and its result is short
    enough, the engine performs it too, and the new node stands for the
    new content. *)
Lemma step_simulation (ha : list (Array A)) (hs : list (list A)) e s' :
  Forall2 stands_for ha hs ->
  eager_step hs e = Some s' -> len s' < cap ->
  exists b, lazy_step ha e = Some b /\ stands_for b s'.
Proof.
  intros Hh He Hs'. destruct e as [limit s|i off cnt|i off cnt j]; simpl in *.
  - injection He as <-. eexists. split; [reflexivity|].
    now apply stands_for_leaf.
  - destruct (nth_error hs i) as [s|] eqn:Hi; [|discriminate].
    destruct (in_boundsb (len s) off cnt) eqn:Hb; [|discriminate].
    injection He as <-. apply in_boundsb_spec in Hb.
    destruct (Forall2_nth_error _ _ _ _ _ Hh Hi) as (a & -> & Hwf & <-).
    rewrite (len_contents cap a Hwf) in Hb.
    destruct (Slice_refines cap cap_int_cap a off cnt Hwf Hb)
      as (b & -> & Hwb & _ & Hcb).
    exists b. split; [reflexivity|]. now split.
  - destruct (nth_error hs i) as [s|] eqn:Hi; [|discriminate].
    destruct (nth_error hs j) as [r|] eqn:Hj; [|discriminate].
    destruct (in_boundsb (len s) off cnt) eqn:Hb; [|discriminate].
    injection He as <-. apply in_boundsb_spec in Hb.
    destruct (Forall2_nth_error _ _ _ _ _ Hh Hi) as (a & -> & Hwf & <-).
    destruct (Forall2_nth_error _ _ _ _ _ Hh Hj) as (ar & -> & Hwr & <-).
    rewrite len_eager_splice in Hs' by assumption.
    rewrite (len_contents cap a Hwf) in Hb, Hs'.
    rewrite (len_contents cap ar Hwr) in Hs'.
    destruct (Splice_refines cap cap_int_cap a off cnt ar Hwf Hwr Hb Hs')
      as (b & -> & Hwb & _ & Hcb).
    exists b. split; [reflexivity|]. now split.
Qed.

Lemma run_simulation es :
  forall (ha : list (Array A)) (hs hs' : list (list A)),
  Forall2 stands_for ha hs ->
  run eager_step hs es = Some hs' ->
  Forall (fun s => len s < cap) hs' ->
  exists ha', run lazy_step ha es = Some ha' /\ Forall2 stands_for ha' hs'.
Proof.
  induction es as [|e es IH]; simpl; intros ha hs hs' Hh Hrun Hshort.
  - injection Hrun as <-. eauto.
  - destruct (eager_step hs e) as [s'|] eqn:He; [|discriminate].
    assert (Hs' : len s' < cap).
    { destruct (run_extends _ _ _ _ Hrun) as (t & ->).
      rewrite Forall_forall in Hshort. apply Hshort.
      rewrite <- app_assoc. apply in_or_app. right. now left. }
    destruct (step_simulation ha hs e s' Hh He Hs') as (b & -> & Hb).
    apply (IH _ _ _ (Forall2_snoc _ _ _ _ _ Hh Hb) Hrun Hshort).
Qed.

(** *** The lengths of the reference's contents *)

Lemma length_step_sound (hs : list (list A)) (ls : list Z) e n :
  Forall2 (fun s k => len s = k) hs ls ->
  length_step ls e = Some n ->
  exists s, eager_step hs e = Some s /\ len s = n.
Proof.
  intros Hh He. destruct e as [limit s|i off cnt|i off cnt j]; simpl in *.
  - injection He as <-. eauto.
  - destruct (nth_error ls i) as [k|] eqn:Hi; [|discriminate].
    destruct (Forall2_nth_error _ _ _ _ _ Hh Hi) as (s & -> & <-).
    destruct (in_boundsb (len s) off cnt) eqn:Hb; [|discriminate].
    injection He as <-. eexists. split; [reflexivity|].
    now apply len_eager_slice, in_boundsb_spec.
  - destruct (nth_error ls i) as [k|] eqn:Hi; [|discriminate].
    destruct (nth_error ls j) as [m|] eqn:Hj; [|discriminate].
    destruct (Forall2_nth_error _ _ _ _ _ Hh Hi) as (s & -> & <-).
    destruct (Forall2_nth_error _ _ _ _ _ Hh Hj) as (r & -> & <-).
    destruct (in_boundsb (len s) off cnt) eqn:Hb; [|discriminate].
    injection He as <-. eexists. split; [reflexivity|].
    now apply len_eager_splice, in_boundsb_spec.
Qed.

Lemma length_run_sound es :
  forall (hs : list (list A)) (ls ls' : list Z),
  Forall2 (fun s k => len s = k) hs ls ->
  run length_step ls es = Some ls' ->
  exists hs', run eager_step hs es = Some hs' /\
              Forall2 (fun s k => len s = k) hs' ls'.
Proof.
  induction es as [|e es IH]; simpl; intros hs ls ls' Hh Hrun.
  - injection Hrun as <-. eauto.
  - destruct (length_step ls e) as [n|] eqn:He; [|discriminate].
    destruct (length_step_sound hs ls e n Hh He) as (s & -> & Hs).
    apply (IH _ _ _ (Forall2_snoc _ _ _ _ _ Hh Hs) Hrun).
Qed.

Lemma Forall2_last {X Y} (R : X -> Y -> Prop) xs ys dx dy :
  Forall2 R xs ys -> xs <> [] -> R (last xs dx) (last ys dy).
Proof.
  induction 1 as [|x y xs ys Hxy H IH]; [congruence|]. intros _.
  destruct H as [|x' y' xs ys Hxy' H]; [exact Hxy|].
  apply IH. discriminate.
Qed.

End Differential.

(** ** Traversal of an arbitrary node *)

Section AnyNode.

Context {A : Type}.
Implicit Types (a r b : Array A) (v : value A) (t : trace A).

Local Abbreviation len l := (Z.of_nat (List.length l)) (only parsing).

(** What a payload's [Slice] has checked when it returns. *)
Lemma Slicer_Slice_inv (s seg : list A) off cnt :
  in_range cnt -> Slicer_Slice s off cnt = Ok seg ->
  0 <= off /\ 0 <= cnt /\ off + cnt <= len s /\ seg = sub_list s off cnt.
Proof.
  intros Hc. unfold Slicer_Slice.
  destruct (Z.leb_spec 0 off) as [H0|]; [|discriminate].
  destruct (Z.leb_spec off (add off cnt)) as [H1|]; [|discriminate].
  destruct (Z.leb_spec (add off cnt) (len s)) as [H2|]; [|discriminate].
  simpl. intros [= <-].
  pose proof (wrap_range (off + cnt)) as Hw. fold (add off cnt) in Hw.
  unfold in_range, min_int, max_int in *.
  destruct (Z_le_gt_dec (off + cnt) (2 ^ 63 - 1)) as [Hsmall|Hbig].
  - rewrite add_small in * by (unfold in_range, min_int, max_int; lia).
    repeat split; try lia. f_equal. lia.
  - exfalso.
    assert (Hhi : add off cnt = off + cnt - 2 ^ 64)
      by (apply wrap_high; unfold max_int; lia).
    lia.
Qed.

Lemma intersect_count_range o1 c1 o2 c2 :
  in_range (snd (intersect o1 c1 o2 c2)).
Proof.
  unfold intersect.
  match goal with |- context [if ?b then (_, sub ?e ?s) else _] =>
    destruct b end; simpl.
  - apply wrap_range.
  - unfold in_range, min_int, max_int. lia.
Qed.

Lemma Forall_emit (P : event A -> Prop) e t :
  P e -> Forall P (fst t) -> Forall P (fst (emit e t)).
Proof. destruct t. simpl. auto. Qed.

Lemma Forall_andThen (P : event A -> Prop) t1 t2 :
  Forall P (fst t1) -> Forall P (fst t2) -> Forall P (fst (andThen t1 t2)).
Proof.
  destruct t1 as [e1 [p|]], t2 as [e2 p2]; simpl; auto.
  intros. now apply Forall_app.
Qed.

(** Whatever the node, a window whose count is an [int] never reaches
    the callback with an empty segment. *)
Lemma Array_forEach_proper a :
  forall off cnt, in_range cnt ->
  Forall proper_visit (fst (Array_forEach a off cnt)).
Proof.
  apply (Array_value_ind
           (fun a => forall off cnt, in_range cnt ->
                     Forall proper_visit (fst (Array_forEach a off cnt)))
           (fun v => forall off cnt, in_range cnt ->
                     Forall proper_visit (fst (forEach v off cnt)))).
  - intros l n v o rc IH off cnt Hc. simpl.
    apply Forall_emit; [exact I|].
    destruct (cnt =? 0); [constructor|]. now apply IH.
  - intros l n v o rc r IHv IHr off cnt Hc. simpl.
    apply Forall_emit; [exact I|].
    destruct (cnt =? 0); [constructor|].
    pose proof (intersect_count_range off cnt 0 o) as H1.
    pose proof (intersect_count_range off cnt o (Count r)) as H2.
    pose proof (intersect_count_range off cnt (add o (Count r)) n) as H3.
    destruct (intersect off cnt 0 o) as [o1 c1].
    destruct (intersect off cnt o (Count r)) as [o2 c2].
    destruct (intersect off cnt (add o (Count r)) n) as [o3 c3].
    simpl in *. repeat apply Forall_andThen; auto.
  - intros off cnt _. simpl. destruct (cnt =? 0); constructor.
  - intros s off cnt Hc. simpl.
    destruct (Z.eqb_spec cnt 0) as [|Hne]; [constructor|].
    destruct (Slicer_Slice s off cnt) as [seg|p] eqn:Hs; [|constructor].
    apply Slicer_Slice_inv in Hs as (H0 & H1 & H2 & ->); [|assumption].
    constructor; [|constructor]. simpl. split; [lia|].
    apply len_sub_list; lia.
  - intros a' IH off cnt Hc. simpl. destruct (cnt =? 0); [constructor|].
    now apply IH.
Qed.

Lemma calls_proper (es : list (event A)) seg cnt :
  Forall proper_visit es -> In (seg, cnt) (calls es) ->
  1 <= cnt /\ len seg = cnt.
Proof.
  induction 1 as [|[n o c|s o c sg] es He Hes IH]; simpl; try tauto.
  intros [[= <- <-]|Hin]; auto.
Qed.

End AnyNode.

(** * The claims of the specification *)

(** ** Construction *)

Section ConstructionClaims.

Context {A : Type}.
Implicit Types (a r b : Array A).

(** The guard of [Slice] and [Splice], as the code computes it: the sum
    is Go's [offset+count]. *)
Lemma invalid_args_panic a off cnt r :
  off < 0 \/ cnt < 0 \/ Count a < add off cnt ->
  Slice a off cnt = Panic InvalidSliceArgs /\
  Splice a off cnt r = Panic InvalidSpliceArgs.
Proof.
  intros H. unfold Slice, Splice.
  assert (Hbad : bad_args a off cnt = true).
  { unfold bad_args. rewrite !orb_true_iff, !Z.ltb_lt. tauto. }
  now rewrite Hbad.
Qed.

(** Within bounds (as integers, on a node whose [Count] is an [int])
    neither of them panics. *)
Lemma in_bounds_no_panic a off cnt r :
  Count a <= max_int -> in_bounds (Count a) off cnt ->
  (exists b, Slice a off cnt = Ok b) /\
  (exists b, Splice a off cnt r = Ok b).
Proof.
  intros Hmax Hin. unfold Slice, Splice.
  rewrite bad_args_in_bounds by assumption.
  split.
  - destruct ((off =? 0) && (cnt =? Count a)); [eauto|].
    destruct (cnt =? 0); [eauto|]. destruct (replacement a); eauto.
  - destruct ((off =? 0) && (cnt =? Count a)); eauto.
Qed.

(** As long as [offset + count] does not exceed the largest [int], the
    guard rejects exactly the windows that are out of bounds. *)
Lemma guard_exact a off cnt :
  in_range off -> in_range cnt -> off + cnt <= max_int ->
  (bad_args a off cnt = true <-> ~ in_bounds (Count a) off cnt).
Proof.
  unfold in_range, min_int, max_int, bad_args, in_bounds.
  intros Ho Hc Hsum.
  destruct (Z.ltb_spec off 0); [simpl; split; [lia|reflexivity]|].
  destruct (Z.ltb_spec cnt 0); [simpl; split; [lia|reflexivity]|].
  rewrite add_small by (unfold in_range, min_int, max_int; lia).
  simpl. rewrite Z.ltb_lt. lia.
Qed.

(** C4 (amended). For every node [a] whose [Count] is a non-negative
    [int], [a.Slice(0, a.Count)] returns [a] itself and
    [a.Splice(0, a.Count, r)] returns [r] itself: no node is wrapped
    around the operand, so the result traverses exactly as the operand
    does. *)
Theorem identity_short_circuits a r :
  0 <= Count a <= max_int ->
  (exists b, Slice a 0 (Count a) = Ok b /\ b = a /\ ForEach b = ForEach a) /\
  (exists b, Splice a 0 (Count a) r = Ok b /\ b = r /\
             ForEach b = ForEach r).
Proof.
  intros H. unfold Slice, Splice.
  rewrite bad_args_in_bounds by (unfold in_bounds; lia).
  rewrite !Z.eqb_refl. simpl. split; eauto.
Qed.

(** C5. On a node without replacement (a leaf or a slice-view), an
    in-bounds window that is neither the whole node nor empty gives a
    slice-view over the node's own value, at the node's offset plus the
    requested one (Go's [+]), with the same limit: a slice of a slice
    does not nest.  On a splice-view it gives a node whose value is the
    whole splice-view, at the requested offset, with the limit minus
    one (Go's [-]). *)
Theorem Slice_collapses_or_wraps a off cnt :
  Count a <= max_int -> in_bounds (Count a) off cnt ->
  ~ (off = 0 /\ cnt = Count a) -> cnt <> 0 ->
  (replacement a = None ->
   Slice a off cnt =
     Ok (mkArray (Limit a) cnt (Value a) (add (offset a) off) 0 None)) /\
  (is_splice_view a ->
   Slice a off cnt =
     Ok (mkArray (sub (Limit a) 1) cnt (VArray a) off 0 None)).
Proof.
  intros Hmax Hin Hnid Hne. unfold Slice, is_splice_view.
  rewrite bad_args_in_bounds by assumption.
  destruct ((off =? 0) && (cnt =? Count a)) eqn:Hid.
  { apply andb_true_iff in Hid as (?%Z.eqb_eq & ?%Z.eqb_eq). tauto. }
  destruct (Z.eqb_spec cnt 0); [contradiction|].
  destruct (replacement a); split; congruence.
Qed.

(** C6 (amended). An in-bounds [Splice] that does not replace the whole
    node stores offset, replaced length and replacement as given.  When
    the base has a non-zero offset or is a splice-view, the new node's
    value is the whole base and its limit is the base's minus one (Go's
    [-]); otherwise - a bare leaf, but also a slice-view whose offset is
    zero - its value is the base's own value and the limit is
    unchanged. *)
Theorem Splice_nesting_rule a off cnt r :
  Count a <= max_int -> in_bounds (Count a) off cnt ->
  ~ (off = 0 /\ cnt = Count a) ->
  exists b,
    Splice a off cnt r = Ok b /\
    offset b = off /\ rcount b = cnt /\ replacement b = Some r /\
    (offset a <> 0 \/ is_splice_view a ->
     Value b = VArray a /\ Limit b = sub (Limit a) 1) /\
    (offset a = 0 /\ replacement a = None ->
     Value b = Value a /\ Limit b = Limit a).
Proof.
  intros Hmax Hin Hnid. unfold Splice, is_splice_view.
  rewrite bad_args_in_bounds by assumption.
  destruct ((off =? 0) && (cnt =? Count a)) eqn:Hid.
  { apply andb_true_iff in Hid as (?%Z.eqb_eq & ?%Z.eqb_eq). tauto. }
  eexists. split; [reflexivity|]. simpl. repeat split; trivial.
  - destruct H as [H|H].
    + apply Z.eqb_neq in H. now rewrite H.
    + destruct (replacement a); [|contradiction]. simpl.
      now rewrite orb_true_r.
  - destruct H as [H|H].
    + apply Z.eqb_neq in H. now rewrite H.
    + destruct (replacement a); [|contradiction]. simpl.
      now rewrite orb_true_r.
  - destruct H as (-> & ->). reflexivity.
  - destruct H as (-> & ->). reflexivity.
Qed.

(** C8. [a.Slice(k, 0)] at a valid position [k] returns a node with
    [Count] 0 and [a]'s [Limit], on which [ForEach] runs to completion
    without calling the callback; so does [ForEach] on every node whose
    [Count] is 0, the zero value [lazy.Array{}] among them. *)
Theorem empty_slice_visits_nothing a k :
  Count a <= max_int -> 0 <= k <= Count a ->
  (exists b, Slice a k 0 = Ok b /\ Count b = 0 /\ Limit b = Limit a /\
             calls (fst (ForEach b)) = [] /\ snd (ForEach b) = None) /\
  (forall b : Array A,
     Count b = 0 ->
     calls (fst (ForEach b)) = [] /\ snd (ForEach b) = None) /\
  Count (@zero A) = 0.
Proof.
  intros Hmax Hk.
  assert (Hempty : forall b : Array A, Count b = 0 ->
            calls (fst (ForEach b)) = [] /\ snd (ForEach b) = None).
  { intros [l n v o rc rep] Hn. simpl in Hn. subst n.
    unfold ForEach. simpl. auto. }
  split; [|split; [exact Hempty|reflexivity]].
  unfold Slice. rewrite bad_args_in_bounds by (unfold in_bounds; lia).
  destruct ((k =? 0) && (0 =? Count a)) eqn:Hid.
  - apply andb_true_iff in Hid as (_ & H0%Z.eqb_eq).
    exists a. repeat split; auto; now apply Hempty.
  - simpl. eexists. split; [reflexivity|]. simpl. auto.
Qed.

(** C10. Whatever the node (its [Count] an [int]), every call the
    callback receives during [ForEach] has a length of at least 1, and
    the segment handed over has that length. *)
Theorem no_empty_visit a seg cnt :
  in_range (Count a) ->
  In (seg, cnt) (calls (fst (ForEach a))) ->
  1 <= cnt /\ Z.of_nat (length seg) = cnt.
Proof.
  intros Hc. apply calls_proper. now apply Array_forEach_proper.
Qed.

End ConstructionClaims.

(** ** Traversal *)

Section TraversalClaims.

Context {A : Type}.
Implicit Types (a r b : Array A).

Local Abbreviation len l := (Z.of_nat (List.length l)) (only parsing).

Lemma Forall_visits (P : event A -> Prop) es :
  Forall P es -> Forall P (visits es).
Proof.
  intros H. eapply incl_Forall; [|exact H]. apply incl_filter.
Qed.

(** C2 (amended). On every node built from proper leaves by in-bounds
    [Slice] and [Splice] calls: as long as every count stays in the
    range of [int] (below [2^63]), [ForEach] runs to completion and each
    segment it hands to the callback is a non-empty part of the payload
    of one of the node's leaves, of the announced length; as long as
    every count stays below [2^62], the segments are moreover, from left
    to right, the content of the node, without overlap and without gap,
    and their lengths add up to the node's [Count].  (A visit need not
    be a maximal run: a zone boundary ends it even when the next visit
    continues in the same payload.) *)
Theorem ForEach_visits_content a :
  (built_below int_cap a ->
   exists es,
     ForEach a = (es, None) /\
     Forall (event_ok (leaves a)) (visits es)) /\
  (built_below cap a ->
   exists es,
     ForEach a = (es, None) /\
     segments es = contents a /\
     total es = Count a).
Proof.
  split; intros Hb.
  - destruct (ForEach_safe a
                (built_wf int_cap (Z.le_refl _) a int_cap_pos Hb))
      as (es & Hes & Hok).
    exists es. split; [assumption|]. now apply Forall_visits.
  - destruct (ForEach_wf a (built_wf cap cap_int_cap a cap_pos Hb))
      as (es & Hes & _ & Hseg & Htot).
    eauto.
Qed.

(** C7 (amended). On every node built from proper leaves by in-bounds
    [Slice] and [Splice] calls: as long as every count stays in the
    range of [int] (below [2^63]), [Count] is not negative, the [Count]
    of a slice is the requested length and the [Count] of a splice is
    the base's count plus the replacement's minus the replaced length;
    as long as every count stays below [2^62], [Count] is also the sum
    of the lengths a full [ForEach] hands to the callback. *)
Theorem Count_is_traversed_length a :
  (built_below int_cap a ->
   0 <= Count a /\
   (forall off cnt b,
      in_bounds (Count a) off cnt -> Slice a off cnt = Ok b ->
      Count b = cnt) /\
   (forall off cnt r b,
      built_below int_cap r -> in_bounds (Count a) off cnt ->
      Count a + (Count r - cnt) < int_cap -> Splice a off cnt r = Ok b ->
      Count b = Count a + (Count r - cnt))) /\
  (built_below cap a ->
   exists es, ForEach a = (es, None) /\ total es = Count a).
Proof.
  split.
  - intros Hb.
    pose proof (built_wf int_cap (Z.le_refl _) a int_cap_pos Hb) as Hwf.
    repeat split.
    + now apply (wf_Count_nonneg int_cap).
    + intros off cnt b Hin Hs.
      destruct (Slice_refines int_cap (Z.le_refl _) a off cnt Hwf Hin)
        as (b' & Hb' & _ & Hc & _).
      congruence.
    + intros off cnt r b Hr Hin Hcap Hs.
      destruct (Splice_refines int_cap (Z.le_refl _) a off cnt r Hwf
                  (built_wf int_cap (Z.le_refl _) r int_cap_pos Hr)
                  Hin Hcap) as (b' & Hb' & _ & Hc & _).
      congruence.
  - intros Hb.
    destruct (ForEach_wf a (built_wf cap cap_int_cap a cap_pos Hb))
      as (es & Hes & _ & _ & Htot).
    eauto.
Qed.


(** X19. Below [2^62] elements the engine refines the eager reference.
    For every initial payload [S] and every sequence of edits - slices
    and splices of any earlier result, with any earlier result or a
    fresh leaf as replacement - that the eager reference performs in
    bounds, producing contents shorter than [2^62]: the engine performs
    every edit without panic, and each node it returns, intermediate or
    final, flattens through [ForEach] to exactly the content the
    reference holds at that step. *)
Theorem lazy_matches_eager limit (S : list A) script hs :
  run eager_step [S] script = Some hs ->
  Forall (fun s => len s < cap) hs ->
  exists ha,
    run lazy_step [leaf limit S] script = Some ha /\
    Forall2 (fun a s => toString a = Some s) ha hs.
Proof.
  intros Hrun Hshort.
  assert (HS : len S < cap).
  { destruct (run_extends _ _ _ _ Hrun) as (t & ->).
    now inversion Hshort. }
  destruct (run_simulation script [leaf limit S] [S] hs) as (ha & Hha & HR);
    auto.
  { constructor; [|constructor]. now apply stands_for_leaf. }
  exists ha. split; [assumption|].
  eapply Forall2_impl; [|exact HR].
  intros a s (Hwf & <-). now apply toString_wf.
Qed.

End TraversalClaims.

(** ** The claims on concrete nodes *)

(** Closed arithmetic facts, by evaluation. *)
Ltac by_compute :=
  vm_compute; repeat split; solve [discriminate | reflexivity].

(** Splits a conjunction into its conjuncts, and nothing else. *)
Ltac conjuncts :=
  repeat match goal with |- _ /\ _ => split end.

Section Concrete.

Import TestArray.

Local Abbreviation len l := (Z.of_nat (List.length l)) (only parsing).

Lemma api_get_Slice {A} (d a : Array A) off cnt :
  api d -> api a -> api (get d (Slice a off cnt)).
Proof.
  intros Hd Ha. destruct (Slice a off cnt) as [b|p] eqn:Hs; simpl; auto.
  exact (api_Slice a off cnt b Ha Hs).
Qed.

Lemma api_get_Splice {A} (d a r : Array A) off cnt :
  api d -> api a -> api r -> api (get d (Splice a off cnt r)).
Proof.
  intros Hd Ha Hr. destruct (Splice a off cnt r) as [b|p] eqn:Hs; simpl; auto.
  exact (api_Splice a off cnt r b Ha Hr Hs).
Qed.

Lemma built_get_Slice {A} B (d a : Array A) off cnt :
  0 < B <= int_cap -> built_below B a -> in_bounds (Count a) off cnt ->
  built_below B (get d (Slice a off cnt)).
Proof.
  intros (HB0 & HB) Ha Hin.
  destruct (Slice_refines B HB a off cnt (built_wf B HB a HB0 Ha) Hin)
    as (b & Hb & _).
  rewrite Hb. simpl. exact (built_Slice B a off cnt b Ha Hin Hb).
Qed.

Lemma built_get_Splice {A} B (d a r : Array A) off cnt :
  0 < B <= int_cap -> built_below B a -> built_below B r ->
  in_bounds (Count a) off cnt -> Count a + (Count r - cnt) < B ->
  built_below B (get d (Splice a off cnt r)).
Proof.
  intros (HB0 & HB) Ha Hr Hin Hc.
  destruct (Splice_refines B HB a off cnt r (built_wf B HB a HB0 Ha)
              (built_wf B HB r HB0 Hr) Hin Hc) as (b & Hb & _).
  rewrite Hb. simpl. exact (built_Splice B a off cnt r b Ha Hr Hin Hc Hb).
Qed.

Lemma built_newArray s :
  len (str s) < cap -> built_below cap (newArray s).
Proof. intros H. apply built_leaf; [lia|assumption]. Qed.

Lemma api_newArray s :
  len (str s) < cap -> api (newArray s).
Proof.
  intros H. apply (built_api cap cap_int_cap). now apply built_newArray.
Qed.

Lemma built_hello : built_below cap hello.
Proof. apply built_newArray. by_compute. Qed.

Lemma built_jello : built_below cap jello.
Proof.
  apply built_get_Splice;
    [by_compute | exact built_hello | apply built_newArray; by_compute
    | by_compute | by_compute].
Qed.

Lemma built_jimbo : built_below cap jimbo.
Proof.
  apply built_get_Splice;
    [by_compute | exact built_jello | apply built_newArray; by_compute
    | by_compute | by_compute].
Qed.

Lemma built_int_jimbo : built_below int_cap jimbo.
Proof. exact (built_below_mono cap int_cap jimbo cap_int_cap built_jimbo). Qed.

Lemma api_doubled n : api (Overflow.doubled n).
Proof.
  induction n as [|n IH]; simpl.
  - apply api_newArray. by_compute.
  - now apply api_get_Splice.
Qed.

Lemma api_big : api Overflow.big.
Proof.
  apply api_get_Splice; [apply api_zero|apply api_doubled..].
Qed.

Lemma api_last_of_big : api Overflow.last_of_big.
Proof. apply api_get_Slice; [apply api_zero|apply api_big]. Qed.

Lemma api_hello : api hello.
Proof. exact (built_api cap cap_int_cap hello built_hello). Qed.

Lemma api_beyond : api Overflow.beyond.
Proof. apply api_get_Slice; [apply api_zero|apply api_hello]. Qed.

(** *** Where the arithmetic wraps around *)

(** The tail zone of [big], as [forEach] asks for it.  [big] has
    [Count = 3 * 2^61], [offset = 2^61 - 1] and a replacement of [2^62]
    elements, so the tail zone starts at [3 * 2^61 - 1] and [forEach]
    passes [Count] as its length.  For the window of the last element
    the end of the zone, [o2 + c2 = 3 * 2^62 - 1], wraps around to
    [- 2^62 - 1]: no overlap is found. *)
Example intersect_wraps :
  Count Overflow.big = 3 * 2 ^ 61 /\
  offset Overflow.big = 2 ^ 61 - 1 /\
  option_map Count (replacement Overflow.big) = Some (2 ^ 62) /\
  add (3 * 2 ^ 61 - 1) (3 * 2 ^ 61) = - 2 ^ 62 - 1 /\
  intersect (3 * 2 ^ 61 - 1) 1 (3 * 2 ^ 61 - 1) (3 * 2 ^ 61) = (0, 0).
Proof. conjuncts; vm_compute; reflexivity. Qed.

(** Each insertion of a node into itself doubles [Count]; the 62nd
    leaves the range of [int]. *)
Example doubling_wraps :
  map (fun n => Count (Overflow.doubled n)) [0; 1; 2; 61; 62]%nat
  = [2; 4; 8; 2 ^ 62; - 2 ^ 63].
Proof. vm_compute. reflexivity. Qed.

(** *** C1 *)

(** The scenario of [TestArray], through the refinement theorem. *)
Lemma lazy_matches_eager_witness :
  run eager_step [str "hello"] Scenario.script = Some Scenario.expected /\
  Forall (fun s => len s < cap) Scenario.expected /\
  exists ha,
    run lazy_step [leaf 0 (str "hello")] Scenario.script = Some ha /\
    Forall2 (fun a s => toString a = Some s) ha Scenario.expected.
Proof.
  assert (H1 : run eager_step [str "hello"] Scenario.script
               = Some Scenario.expected) by (vm_compute; reflexivity).
  assert (H2 : Forall (fun s => len s < cap) Scenario.expected)
    by (unfold Scenario.expected; simpl;
        repeat (constructor; [by_compute|]); constructor).
  split; [exact H1|split; [exact H2|]].
  exact (lazy_matches_eager 0 (str "hello") Scenario.script
           Scenario.expected H1 H2).
Defined.

(** C1. The engine loses content beyond [2^62] elements.  The script
    doubles [ab] up to [2^61] and [2^62] elements, inserts the one into
    the other ([3 * 2^61] elements) and slices the last element off.
    Every edit is in bounds, every content the reference holds has a
    length that fits in an [int], and the reference keeps one element;
    the engine returns a node, without panic, whose traversal visits
    nothing: the zone end [offset + replacement.Count + Count] that
    [forEach] hands to [intersect] has wrapped around. *)
Theorem overflow_loses_last_element :
  exists hs,
    run eager_step [str "ab"] Overflow.script = Some hs /\
    Forall (fun s => len s <= max_int) hs /\
    len (last hs []) = 1 /\
    option_map (fun ha => toString (last ha zero))
      (run lazy_step [leaf 0 (str "ab")] Overflow.script) = Some (Some []) /\
    ~ exists ha,
        run lazy_step [leaf 0 (str "ab")] Overflow.script = Some ha /\
        Forall2 (fun a s => toString a = Some s) ha hs.
Proof.
  assert (Hls : exists ls, run length_step [2] Overflow.script = Some ls /\
                           last ls 0 = 1 /\
                           forallb (fun k => k <=? max_int) ls = true).
  { eexists. split; [vm_compute; reflexivity|].
    split; [reflexivity|vm_compute; reflexivity]. }
  destruct Hls as (ls & Hls & Hlast & Hfit).
  destruct (length_run_sound Overflow.script [str "ab"] [2] ls)
    as (hs & Hhs & Hlen); [repeat constructor|exact Hls|].
  assert (Hint : Forall (fun s : list ascii => len s <= max_int) hs).
  { clear - Hlen Hfit. induction Hlen as [|s k hs ls Hs _ IH].
    - constructor.
    - cbn [forallb] in Hfit. apply andb_prop in Hfit as (Hk & Hfit).
      constructor; [|exact (IH Hfit)].
      apply Z.leb_le in Hk. now rewrite Hs. }
  assert (Hne : hs <> []).
  { destruct (run_extends _ _ _ _ Hhs) as (t & ->). discriminate. }
  assert (Hone : len (last hs []) = 1).
  { rewrite <- Hlast. apply (Forall2_last _ _ _ _ _ Hlen Hne). }
  assert (Hlazy : option_map (fun ha => toString (last ha zero))
            (run lazy_step [leaf 0 (str "ab")] Overflow.script)
          = Some (Some [])) by (vm_compute; reflexivity).
  exists hs.
  split; [exact Hhs|split; [exact Hint|split; [exact Hone|split; [exact Hlazy|]]]].
  intros (ha & Hha & HF). rewrite Hha in Hlazy. simpl in Hlazy.
  assert (Hna : ha <> []).
  { intros ->. inversion HF. congruence. }
  pose proof (Forall2_last _ _ _ zero [] HF Hna) as Hl. simpl in Hl.
  rewrite Hl in Hlazy. injection Hlazy as Hnil.
  rewrite Hnil in Hone. discriminate Hone.
Qed.

(** *** C2 *)

Lemma ForEach_visits_content_witness :
  built_below int_cap jimbo /\ built_below cap jimbo /\
  (exists es,
     ForEach jimbo = (es, None) /\
     Forall (event_ok (leaves jimbo)) (visits es)) /\
  (exists es,
     ForEach jimbo = (es, None) /\
     segments es = contents jimbo /\
     total es = Count jimbo).
Proof.
  split; [exact built_int_jimbo|split; [exact built_jimbo|]].
  split.
  - exact (proj1 (ForEach_visits_content jimbo) built_int_jimbo).
  - exact (proj2 (ForEach_visits_content jimbo) built_jimbo).
Defined.

(** C2, as stated, fails twice.  On [hello.Splice(2, 0, lazy.Array{})]
    the callback is called with [he] and with [llo]: two calls for one
    contiguous run of the leaf [hello], because the zone boundary at 2
    ends the first.  On the last element of [big], a node whose
    [Count] is 1, the traversal visits nothing.  And on
    [hello.Slice(math.MaxInt64, 1)], which the guard lets through, the
    traversal panics in the payload before any visit. *)
Lemma visits_not_maximal :
  (api Views.he_llo /\
   visits (fst (ForEach Views.he_llo)) =
     [Visit (str "hello") 0 2 (str "he");
      Visit (str "hello") 2 3 (str "llo")] /\
   ~ maximal_runs (visits (fst (ForEach Views.he_llo)))) /\
  (api Overflow.last_of_big /\ Count Overflow.last_of_big = 1 /\
   snd (ForEach Overflow.last_of_big) = None /\
   total (fst (ForEach Overflow.last_of_big)) = 0) /\
  (api Overflow.beyond /\ Count Overflow.beyond = 1 /\
   ForEach Overflow.beyond =
     ([Window 1 0 1], Some (SliceBounds 5 max_int 1))).
Proof.
  split; [split; [|split]|split; [split; [|split; [|split]]|split; [|split]]].
  - apply api_get_Splice; [apply api_zero|apply api_hello|apply api_zero].
  - vm_compute. reflexivity.
  - vm_compute. intros (H & _). apply H. split; reflexivity.
  - apply api_last_of_big.
  - vm_compute. reflexivity.
  - vm_compute. reflexivity.
  - vm_compute. reflexivity.
  - apply api_beyond.
  - vm_compute. reflexivity.
  - vm_compute. reflexivity.
Qed.

(** *** C3 *)

(** C3 at [hello.Slice(math.MaxInt64, 1)] and
    [hello.Splice(math.MaxInt64, 1, j)]: the sum [offset+count] wraps
    around to [math.MinInt64], the guard lets the window through, and a
    node is returned.  Traversing the slice then asks the payload
    [hello] for [s[MaxInt64 : MinInt64]]. *)
Theorem guard_misses_wrapped_sum :
  max_int + 1 > Count hello /\
  Slice hello max_int 1 =
    Ok (mkArray 0 1 (VSlicer (str "hello")) max_int 0 None) /\
  Splice hello max_int 1 (newArray "j") =
    Ok (mkArray 0 5 (VSlicer (str "hello")) max_int 1
          (Some (newArray "j"))) /\
  ForEach Overflow.beyond = ([Window 1 0 1], Some (SliceBounds 5 max_int 1)).
Proof. conjuncts; vm_compute; reflexivity. Qed.

(** *** C7 *)

Lemma Count_is_traversed_length_witness :
  built_below int_cap jimbo /\ built_below cap jimbo /\
  (0 <= Count jimbo /\
   (forall off cnt b,
      in_bounds (Count jimbo) off cnt -> Slice jimbo off cnt = Ok b ->
      Count b = cnt) /\
   (forall off cnt r b,
      built_below int_cap r -> in_bounds (Count jimbo) off cnt ->
      Count jimbo + (Count r - cnt) < int_cap ->
      Splice jimbo off cnt r = Ok b ->
      Count b = Count jimbo + (Count r - cnt))) /\
  (exists es, ForEach jimbo = (es, None) /\ total es = Count jimbo).
Proof.
  split; [exact built_int_jimbo|split; [exact built_jimbo|]].
  split.
  - exact (proj1 (Count_is_traversed_length jimbo) built_int_jimbo).
  - exact (proj2 (Count_is_traversed_length jimbo) built_jimbo).
Defined.

(** C7, as stated, fails in both of its parts.  [ab], inserted into
    itself 62 times, has [2^63] elements and a [Count] of [-2^63].  The
    last element of [big] has a [Count] of 1 and a traversal that
    visits nothing: the three zones of [big] come out empty.  And
    [hello.Slice(math.MaxInt64, 1)], which the guard lets through, has a
    [Count] of 1 and a traversal that panics before any visit. *)
Lemma Count_overflows :
  (api (Overflow.doubled 62) /\ Count (Overflow.doubled 62) = - 2 ^ 63) /\
  (api Overflow.last_of_big /\ Count Overflow.last_of_big = 1 /\
   ForEach Overflow.last_of_big =
     ([Window 1 0 1; Window (3 * 2 ^ 61) (3 * 2 ^ 61 - 1) 1;
       Window (2 ^ 62) (- 2 ^ 61 + 1) 0], None)) /\
  (api Overflow.beyond /\ Count Overflow.beyond = 1 /\
   ForEach Overflow.beyond =
     ([Window 1 0 1], Some (SliceBounds 5 max_int 1))).
Proof.
  split; [split|split; [split; [|split]|split; [|split]]].
  - apply api_doubled.
  - vm_compute. reflexivity.
  - apply api_last_of_big.
  - vm_compute. reflexivity.
  - vm_compute. reflexivity.
  - apply api_beyond.
  - vm_compute. reflexivity.
  - vm_compute. reflexivity.
Qed.

(** *** C9 *)



(** *** C4 *)

Lemma identity_short_circuits_witness :
  0 <= Count jimbo <= max_int /\
  (exists b, Slice jimbo 0 (Count jimbo) = Ok b /\ b = jimbo /\
             ForEach b = ForEach jimbo) /\
  (exists b, Splice jimbo 0 (Count jimbo) jello = Ok b /\ b = jello /\
             ForEach b = ForEach jello).
Proof.
  assert (H : 0 <= Count jimbo <= max_int) by by_compute.
  split; [exact H|exact (identity_short_circuits jimbo jello H)].
Defined.

(** C4, as stated for every node, fails on a node with a negative
    [Count]: the range check [count < 0] panics before the
    short-circuit is reached.  Such a node is the literal
    [Array{Count: -1}], and also [ab] inserted into itself 62 times,
    built through the API alone, whose [Count] has wrapped to
    [-2^63]. *)
Lemma negative_Count_panics :
  (Slice (A:=ascii) (mkArray 0 (-1) VNil 0 0 None) 0 (-1)
   = Panic InvalidSliceArgs /\
   Splice (A:=ascii) (mkArray 0 (-1) VNil 0 0 None) 0 (-1) jello
   = Panic InvalidSpliceArgs) /\
  (api (Overflow.doubled 62) /\ Count (Overflow.doubled 62) = - 2 ^ 63 /\
   Slice (Overflow.doubled 62) 0 (Count (Overflow.doubled 62))
   = Panic InvalidSliceArgs /\
   Splice (Overflow.doubled 62) 0 (Count (Overflow.doubled 62)) jello
   = Panic InvalidSpliceArgs).
Proof.
  assert (Hc : Count (Overflow.doubled 62) = - 2 ^ 63)
    by (vm_compute; reflexivity).
  split; [split; reflexivity|].
  split; [apply api_doubled|]. split; [exact Hc|].
  apply invalid_args_panic. right. left. rewrite Hc. reflexivity.
Qed.

(** *** C5 *)

Lemma Slice_collapses_or_wraps_witness :
  Count jimbo <= max_int /\ in_bounds (Count jimbo) 2 2 /\
  ~ (2 = 0 /\ 2 = Count jimbo) /\ 2 <> 0 /\
  (replacement jimbo = None ->
   Slice jimbo 2 2 =
     Ok (mkArray (Limit jimbo) 2 (Value jimbo) (add (offset jimbo) 2) 0
           None)) /\
  (is_splice_view jimbo ->
   Slice jimbo 2 2 = Ok (mkArray (sub (Limit jimbo) 1) 2 (VArray jimbo) 2 0
                           None)).
Proof.
  assert (H1 : Count jimbo <= max_int) by by_compute.
  assert (H2 : in_bounds (Count jimbo) 2 2) by by_compute.
  assert (H3 : ~ (2 = 0 /\ 2 = Count jimbo)) by (intros (H & _); lia).
  assert (H4 : 2 <> 0) by lia.
  repeat (split; [assumption|]).
  exact (Slice_collapses_or_wraps jimbo 2 2 H1 H2 H3 H4).
Defined.

(** *** C6 *)

Lemma Splice_nesting_rule_witness :
  Count Views.jel <= max_int /\ in_bounds (Count Views.jel) 1 1 /\
  ~ (1 = 0 /\ 1 = Count Views.jel) /\
  exists b,
    Splice Views.jel 1 1 (newArray "x") = Ok b /\
    offset b = 1 /\ rcount b = 1 /\ replacement b = Some (newArray "x") /\
    (offset Views.jel <> 0 \/ is_splice_view Views.jel ->
     Value b = VArray Views.jel /\ Limit b = sub (Limit Views.jel) 1) /\
    (offset Views.jel = 0 /\ replacement Views.jel = None ->
     Value b = Value Views.jel /\ Limit b = Limit Views.jel).
Proof.
  assert (H1 : Count Views.jel <= max_int) by by_compute.
  assert (H2 : in_bounds (Count Views.jel) 1 1) by by_compute.
  assert (H3 : ~ (1 = 0 /\ 1 = Count Views.jel)) by (intros (H & _); lia).
  repeat (split; [assumption|]).
  exact (Splice_nesting_rule Views.jel 1 1 (newArray "x") H1 H2 H3).
Defined.

(** C6, as stated, fails on [jello.Slice(0, 3).Splice(1, 1, x)]: the
    base is a slice-view (its value is the splice-view [jello]), not a
    bare leaf, yet the new node's value is [jello], not the base, and
    the limit is unchanged. *)
Lemma prefix_view_not_wrapped :
  is_slice_view Views.jel /\ ~ is_bare_leaf Views.jel /\
  in_bounds (Count Views.jel) 1 1 /\ ~ (1 = 0 /\ 1 = Count Views.jel) /\
  exists b,
    Splice Views.jel 1 1 (newArray "x") = Ok b /\
    Value b = VArray jello /\ Value b <> VArray Views.jel /\
    Limit b = Limit Views.jel /\ Limit b <> sub (Limit Views.jel) 1 /\
    toString b = Some (str "jxl").
Proof.
  split; [|split; [|split; [|split]]].
  - split; [reflexivity|]. right. eexists. reflexivity.
  - intros (_ & _ & s & H). vm_compute in H. discriminate.
  - by_compute.
  - intros (H & _). lia.
  - eexists. split; [reflexivity|]. vm_compute.
    repeat split; solve [reflexivity | discriminate].
Qed.

(** *** C8 *)

Lemma empty_slice_visits_nothing_witness :
  Count hello <= max_int /\ 0 <= 3 <= Count hello /\
  (exists b, Slice hello 3 0 = Ok b /\ Count b = 0 /\
             Limit b = Limit hello /\
             calls (fst (ForEach b)) = [] /\ snd (ForEach b) = None) /\
  (forall b : Array ascii,
     Count b = 0 ->
     calls (fst (ForEach b)) = [] /\ snd (ForEach b) = None) /\
  Count (@zero ascii) = 0.
Proof.
  assert (H1 : Count hello <= max_int) by by_compute.
  assert (H2 : 0 <= 3 <= Count hello) by by_compute.
  repeat (split; [assumption|]).
  exact (empty_slice_visits_nothing hello 3 H1 H2).
Defined.

(** *** C10 *)

Lemma no_empty_visit_witness :
  in_range (Count jello) /\
  In (str "ello", 4) (calls (fst (ForEach jello))) /\
  1 <= 4 /\ len (str "ello") = 4.
Proof.
  assert (H1 : in_range (Count jello)) by by_compute.
  assert (H2 : In (str "ello", 4) (calls (fst (ForEach jello))))
    by (vm_compute; right; left; reflexivity).
  repeat (split; [assumption|]).
  exact (no_empty_visit jello (str "ello") 4 H1 H2).
Defined.

End Concrete.

(** * Further properties of the code *)

(** ** [intersect] *)

(** X1. Without wrap-around, [intersect] answers the common part of the
    intervals [[o1, o1+c1)] and [[o2, o2+c2)]: a position lies in the
    answer exactly when it lies in both, and the answer is [(0, 0)] when
    they share no position. *)
Theorem intersect_overlap o1 c1 o2 c2 :
  in_range o1 -> in_range c1 -> in_range o2 -> in_range c2 ->
  in_range (o1 + c1) -> in_range (o2 + c2) ->
  let (s, c) := intersect o1 c1 o2 c2 in
  (forall p, s <= p < s + c <-> (o1 <= p < o1 + c1 /\ o2 <= p < o2 + c2)) /\
  ((forall p, ~ (o1 <= p < o1 + c1 /\ o2 <= p < o2 + c2)) ->
   s = 0 /\ c = 0).
Proof.
  intros H1 H2 H3 H4 H5 H6. unfold intersect.
  rewrite (add_small o1 c1), (add_small o2 c2) by assumption.
  unfold in_range, min_int, max_int in *.
  destruct (Z.ltb_spec o1 o2), (Z.ltb_spec (o2 + c2) (o1 + c1));
    match goal with
    | |- context [?x <? ?y] => destruct (Z.ltb_spec x y)
    end;
    try rewrite sub_small by (unfold in_range, min_int, max_int; lia);
    (split; [intros p; lia|]); intros Hd;
    first [lia | exfalso; apply (Hd o1); lia | exfalso; apply (Hd o2); lia].
Qed.

(** X2. [intersect] does not depend on the order of the two intervals,
    whatever the arguments - also when a sum wraps around. *)
Theorem intersect_comm o1 c1 o2 c2 :
  intersect o1 c1 o2 c2 = intersect o2 c2 o1 c1.
Proof.
  unfold intersect.
  generalize (add o1 c1) (add o2 c2). intros e1 e2.
  destruct (Z.ltb_spec o1 o2), (Z.ltb_spec o2 o1),
    (Z.ltb_spec e2 e1), (Z.ltb_spec e1 e2); try lia;
    repeat match goal with
      | |- context [?x <? ?y] => destruct (Z.ltb_spec x y)
      end;
    try lia; try reflexivity;
    match goal with
    | |- (?a, sub ?b ?c) = (?a', sub ?b' ?c') =>
        replace a' with a by lia; replace b' with b by lia;
        replace c' with c by lia; reflexivity
    end.
Qed.

(** X3. The three zones [forEach] cuts a splice-view into - head
    [[0, offset)], replacement [[offset, offset+R)] and tail, handed to
    [intersect] as [[offset+R, offset+R+Count)] - split every in-bounds
    window exactly: as long as [Count] is below [2^62] the three counts
    add up to the window's count. *)
Theorem zones_split_window n o R off cnt :
  0 <= o -> 0 <= R -> o + R <= n -> n < cap ->
  0 <= off -> 0 <= cnt -> off + cnt <= n ->
  snd (intersect off cnt 0 o)
  + snd (intersect off cnt o R)
  + snd (intersect off cnt (add o R) n) = cnt.
Proof.
  intros. unwrap.
  destruct (intersect_cases off cnt 0 o) as (o1 & c1 & -> & H1');
    try (unfold cap in *; lia).
  destruct (intersect_cases off cnt o R) as (o2 & c2 & -> & H2');
    try (unfold cap in *; lia).
  destruct (intersect_cases off cnt (o + R) n) as (o3 & c3 & -> & H3');
    try (unfold cap in *; lia).
  simpl. lia.
Qed.

(** ** [Slice] as a deferred window, and slices of slices *)

Lemma wrap_wrap z : wrap (wrap z) = wrap z.
Proof. apply wrap_small, wrap_range. Qed.

Lemma wrap_add_l x y : wrap (wrap x + y) = wrap (x + y).
Proof.
  unfold wrap. f_equal.
  replace ((x + 2 ^ 63) mod 2 ^ 64 - 2 ^ 63 + y + 2 ^ 63)
    with ((x + 2 ^ 63) mod 2 ^ 64 + y) by lia.
  rewrite Zplus_mod_idemp_l. f_equal. lia.
Qed.

Lemma add_add_l x y z : add (add x y) z = add x (y + z).
Proof. unfold add. rewrite wrap_add_l. f_equal. lia. Qed.

Lemma add_0_r x : in_range x -> add x 0 = x.
Proof. intros. unfold add. rewrite Z.add_0_r. now apply wrap_small. Qed.

Section SliceAlgebra.

Context {A : Type}.

Local Abbreviation len l := (Z.of_nat (List.length l)) (only parsing).

Lemma calls_emit_window n off cnt (t : trace A) :
  calls (fst (emit (Window n off cnt) t)) = calls (fst t) /\
  snd (emit (Window n off cnt) t) = snd t.
Proof. destruct t. simpl. auto. Qed.

Lemma Array_forEach_unfold (a : Array A) off cnt :
  Array_forEach a off cnt =
  emit (Window (Count a) off cnt)
    (if cnt =? 0 then done
     else match replacement a with
          | Some r =>
              let (o1, c1) := intersect off cnt 0 (offset a) in
              let (o2, c2) := intersect off cnt (offset a) (Count r) in
              let (o3, c3) :=
                intersect off cnt (add (offset a) (Count r)) (Count a) in
              andThen (forEach (Value a) o1 c1)
                (andThen (Array_forEach r (sub o2 (offset a)) c2)
                   (forEach (Value a) (add (sub o3 (Count r)) (rcount a)) c3))
          | None => forEach (Value a) (add (offset a) off) cnt
          end).
Proof. destruct a as [l n v o rc [r|]]; reflexivity. Qed.

(** X4. A slice is the deferred window, for every node whatsoever: the
    full traversal of [a.Slice(offset, count)] makes the same callback
    calls, and ends in the same panic if any, as the traversal of the
    window [[offset, offset+count)] of [a] itself. *)
Theorem Slice_is_deferred_window (a b : Array A) off cnt :
  in_range off ->
  Slice a off cnt = Ok b ->
  calls (fst (ForEach b)) = calls (fst (Array_forEach a off cnt)) /\
  snd (ForEach b) = snd (Array_forEach a off cnt).
Proof.
  intros Hoff. unfold Slice.
  destruct (bad_args a off cnt); [discriminate|].
  destruct ((off =? 0) && (cnt =? Count a)) eqn:Hid.
  { intros [= <-]. apply andb_prop in Hid as (H1 & H2).
    apply Z.eqb_eq in H1, H2. subst. auto. }
  destruct (cnt =? 0) eqn:Hc.
  { intros [= <-]. apply Z.eqb_eq in Hc. subst cnt.
    rewrite (Array_forEach_unfold a). unfold ForEach. simpl. auto. }
  unfold ForEach.
  rewrite (Array_forEach_unfold a), Hc.
  destruct (replacement a) as [r|] eqn:Hr; intros [= <-];
    rewrite Array_forEach_unfold; cbn [Count Value offset replacement];
    rewrite Hc.
  - destruct (calls_emit_window cnt 0 cnt
                (forEach (VArray a) (add off 0) cnt)) as (-> & ->).
    rewrite add_0_r by assumption.
    simpl forEach. rewrite Hc.
    rewrite (Array_forEach_unfold a), Hc, Hr. auto.
  - rewrite add_add_l, Z.add_0_r.
    destruct (calls_emit_window cnt 0 cnt
                (forEach (Value a) (add (offset a) off) cnt)) as (-> & ->).
    destruct (calls_emit_window (Count a) off cnt
                (forEach (Value a) (add (offset a) off) cnt)) as (-> & ->).
    auto.
Qed.

(** X5. Slices do not stack.  Slicing a slice gives the very node that
    slicing the original at the shifted offset gives - same value,
    same offset, same limit - so a chain of slices is never deeper than
    one slice.  (Only an empty slice of a slice of a splice-view differs,
    and only in its [Limit].) *)
Theorem Slice_of_Slice (a b : Array A) o1 c1 o2 c2 :
  Count a <= max_int ->
  in_bounds (Count a) o1 c1 -> in_bounds c1 o2 c2 ->
  Slice a o1 c1 = Ok b ->
  c2 <> 0 \/ replacement a = None ->
  Slice b o2 c2 = Slice a (o1 + o2) c2.
Proof.
  intros Hmax (Ho1 & Hc1 & Hle1) (Ho2 & Hc2 & Hle2) Hb Hcase.
  assert (Hg : forall (x : Array A) off cnt, Count x <= max_int ->
             in_bounds (Count x) off cnt -> bad_args x off cnt = false).
  { intros x off cnt Hx (H1 & H2 & H3). unfold bad_args.
    rewrite add_small by (unfold in_range, min_int, max_int in *; lia).
    destruct (Z.ltb_spec off 0), (Z.ltb_spec cnt 0),
      (Z.ltb_spec (Count x) (off + cnt)); try lia; reflexivity. }
  revert Hb. unfold Slice at 1.
  rewrite Hg by (unfold in_bounds; auto).
  destruct ((o1 =? 0) && (c1 =? Count a)) eqn:Hid1.
  { intros [= <-]. apply andb_prop in Hid1 as (H1 & H2).
    apply Z.eqb_eq in H1, H2. subst. reflexivity. }
  assert (Hnid : ~ (o1 = 0 /\ c1 = Count a)).
  { intros (-> & ->). now rewrite !Z.eqb_refl in Hid1. }
  assert (Hid : (o1 + o2 =? 0) && (c2 =? Count a) = false).
  { apply andb_false_iff.
    destruct (Z.eqb_spec (o1 + o2) 0), (Z.eqb_spec c2 (Count a)); auto.
    exfalso. apply Hnid. lia. }
  assert (Hbig : bad_args a (o1 + o2) c2 = false).
  { apply Hg; unfold in_bounds; auto; lia. }
  unfold Slice at 2. rewrite Hbig, Hid.
  destruct (c1 =? 0) eqn:Hz1.
  { intros [= <-]. apply Z.eqb_eq in Hz1.
    assert (o2 = 0 /\ c2 = 0) as (-> & ->) by lia.
    reflexivity. }
  apply Z.eqb_neq in Hz1.
  destruct (replacement a) as [r|] eqn:Hr; intros [= <-]; unfold Slice;
    cbn [Count Limit Value offset replacement];
    (rewrite Hg by (cbn [Count]; unfold in_bounds; auto;
                   unfold max_int in *; lia));
    cbn [Count].
  - destruct Hcase as [Hc2n|]; [|discriminate].
    destruct ((o2 =? 0) && (c2 =? c1)) eqn:Hid2.
    { apply andb_prop in Hid2 as (H1 & H2).
      apply Z.eqb_eq in H1, H2. subst.
      rewrite Z.add_0_r. apply Z.eqb_neq in Hz1. now rewrite Hz1. }
    apply Z.eqb_neq in Hc2n. rewrite Hc2n.
    rewrite add_small by (unfold in_range, min_int, max_int in *; lia).
    reflexivity.
  - destruct ((o2 =? 0) && (c2 =? c1)) eqn:Hid2.
    { apply andb_prop in Hid2 as (H1 & H2).
      apply Z.eqb_eq in H1, H2. subst.
      rewrite Z.add_0_r. apply Z.eqb_neq in Hz1. now rewrite Hz1. }
    destruct (c2 =? 0); [reflexivity|].
    now rewrite add_add_l.
Qed.

(** ** The limit *)

Lemma forget_limits_Count (a : Array A) :
  Count (forget_limits a) = Count a.
Proof. destruct a as [l n v o rc [r|]]; reflexivity. Qed.

Lemma forEach_forget_limits (a : Array A) :
  forall off cnt,
    Array_forEach (forget_limits a) off cnt = Array_forEach a off cnt.
Proof.
  revert a.
  apply (Array_value_ind
           (fun a => forall off cnt,
                Array_forEach (forget_limits a) off cnt
                = Array_forEach a off cnt)
           (fun v => forall off cnt,
                forEach (vforget_limits v) off cnt = forEach v off cnt)).
  - intros l n v o rc IH off cnt. simpl. now rewrite IH.
  - intros l n v o rc r IHv IHr off cnt. simpl.
    rewrite forget_limits_Count.
    destruct (cnt =? 0); [reflexivity|].
    destruct (intersect off cnt 0 o), (intersect off cnt o (Count r)),
      (intersect off cnt (add o (Count r)) n).
    now rewrite !IHv, IHr.
  - reflexivity.
  - reflexivity.
  - intros a IH off cnt. simpl. now rewrite IH.
Qed.

(** X6. [ForEach] never reads a [Limit]: two nodes that differ only in
    their limits, at whatever level of nesting, are traversed
    identically - same windows, same calls, same panic. *)
Theorem ForEach_ignores_limits (a b : Array A) :
  forget_limits a = forget_limits b -> ForEach a = ForEach b.
Proof.
  intros H. unfold ForEach.
  rewrite <- (forEach_forget_limits a), <- (forEach_forget_limits b).
  rewrite <- (forget_limits_Count a), <- (forget_limits_Count b).
  now rewrite H.
Qed.

Lemma depth_VArray l n (a : Array A) o rc rep :
  depth (mkArray l n (VArray a) o rc rep) = 1 + depth a.
Proof. reflexivity. Qed.

Lemma Slice_budget (a b : Array A) off cnt :
  in_range (Limit a - 1) ->
  Slice a off cnt = Ok b ->
  b = a \/ cnt = 0 \/
  (Limit b = Limit a /\ depth b = depth a) \/
  (Limit b = Limit a - 1 /\ depth b = 1 + depth a).
Proof.
  intros HL. unfold Slice.
  destruct (bad_args a off cnt); [discriminate|].
  destruct ((off =? 0) && (cnt =? Count a)); [intros [= <-]; auto|].
  destruct (Z.eqb_spec cnt 0) as [Hz|Hz]; [auto|].
  destruct a as [l n v o rc [r|]]; intros [= <-]; right; right;
    cbn [Limit replacement Value] in *.
  - right. rewrite sub_small by assumption. rewrite depth_VArray.
    cbn [Limit]. auto.
  - left. split; reflexivity.
Qed.

Lemma Splice_budget (a r b : Array A) off cnt :
  in_range (Limit a - 1) ->
  Splice a off cnt r = Ok b ->
  b = r \/
  (Limit b = Limit a /\ depth b = depth a) \/
  (Limit b = Limit a - 1 /\ depth b = 1 + depth a).
Proof.
  intros HL. unfold Splice.
  destruct (bad_args a off cnt); [discriminate|].
  destruct ((off =? 0) && (cnt =? Count a)); [intros [= <-]; auto|].
  destruct a as [l n v o rc rep]; cbn [Limit replacement Value offset] in *.
  destruct (negb (o =? 0) || is_some rep); intros [= <-]; right.
  - right. rewrite sub_small by assumption. rewrite depth_VArray.
    cbn [Limit]. auto.
  - left. split; reflexivity.
Qed.

(** X7. What the limit counts.  Apart from the short-circuits ([Slice]
    returning the receiver or an empty node, [Splice] returning the
    replacement), every operation keeps [Limit + depth] of the receiver:
    the limit goes down by exactly one for each node nested along
    [Value], and by nothing when the operation does not nest. *)
Theorem Limit_counts_nesting (a b : Array A) off cnt :
  in_range (Limit a - 1) ->
  (Slice a off cnt = Ok b ->
   b = a \/ cnt = 0 \/ Limit b + depth b = Limit a + depth a) /\
  (forall r, Splice a off cnt r = Ok b ->
   b = r \/ Limit b + depth b = Limit a + depth a).
Proof.
  intros HL. split.
  - intros Hb.
    destruct (Slice_budget a b off cnt HL Hb) as [H|[H|[H|H]]]; auto;
      right; right; lia.
  - intros r Hb.
    destruct (Splice_budget a r b off cnt HL Hb) as [H|[H|H]]; auto;
      right; lia.
Qed.

(** ** Number of calls, and unchecked leaves *)

Lemma calls_le_total (L : list (list A)) (es : list (event A)) :
  Forall (event_ok L) es -> len (calls es) <= total es.
Proof.
  induction 1 as [|e es He _ IH]; [unfold total; simpl; lia|].
  destruct e as [n o c|s o c seg]; [exact IH|].
  destruct He as (_ & _ & Hc & _).
  unfold total in *. cbn [calls map snd fold_right length].
  rewrite Nat2Z.inj_succ. lia.
Qed.

(** X8. The callback is called at most [Count] times: a full traversal
    of a node built through the API with counts below [2^62] completes
    after no more calls than the node has elements. *)
Theorem calls_at_most_Count (a : Array A) :
  built_below cap a ->
  exists es, ForEach a = (es, None) /\ len (calls es) <= Count a.
Proof.
  intros Hb.
  pose proof (built_wf cap cap_int_cap a cap_pos Hb) as Hwf.
  destruct (ForEach_wf a Hwf) as (es & Hes & Hok & _ & Htot).
  exists es. split; [assumption|].
  rewrite <- Htot. now apply (calls_le_total (leaves a)).
Qed.

(** X9. The engine trusts the [Count] of a hand-made leaf.  A leaf
    literal whose [Count] exceeds the length of its payload (or is
    negative) is accepted as it is, and its traversal panics inside the
    payload's [Slice] before any call is made; a literal with a
    non-zero [Count] and no value panics on the type assertion. *)
Theorem unchecked_leaf_panics limit n (s : list A) :
  in_range n -> n < 0 \/ len s < n ->
  ForEach (mkArray limit n (VSlicer s) 0 0 None)
  = ([Window n 0 n], Some (SliceBounds (len s) 0 n)) /\
  ForEach (A:=A) (mkArray limit n VNil 0 0 None)
  = ([Window n 0 n], Some NotASlicer).
Proof.
  intros Hn Hbad.
  assert (Hz : (n =? 0) = false) by (apply Z.eqb_neq; lia).
  unfold ForEach. simpl. rewrite Hz.
  change (add 0 0) with 0. split; [|reflexivity].
  unfold Slicer_Slice.
  rewrite add_small by (simpl; assumption). simpl.
  destruct (Z.leb_spec 0 n), (Z.leb_spec n (len s)); try lia; reflexivity.
Qed.

End SliceAlgebra.

(** ** Reading back what was written *)

Section RoundTrips.

Context {A : Type}.
Implicit Types l r : list A.

Local Abbreviation len l := (Z.of_nat (List.length l)) (only parsing).

Lemma firstn_app_exact (h t : list A) : firstn (length h) (h ++ t) = h.
Proof.
  rewrite firstn_app, firstn_all, Nat.sub_diag. simpl. apply app_nil_r.
Qed.

Lemma skipn_app_exact (h t : list A) : skipn (length h) (h ++ t) = t.
Proof.
  rewrite skipn_app, skipn_all, Nat.sub_diag. reflexivity.
Qed.

Lemma length_head l o :
  0 <= o <= len l -> length (firstn (Z.to_nat o) l) = Z.to_nat o.
Proof. intros. rewrite length_firstn. lia. Qed.

Lemma splice_reads_replacement l o c r :
  0 <= o <= len l ->
  sub_list (eager_splice l o c r) o (len r) = r.
Proof.
  intros H. unfold sub_list, eager_splice.
  pose proof (length_head l o H) as Hh.
  set (h := firstn (Z.to_nat o) l) in *. rewrite <- Hh.
  rewrite skipn_app_exact, Nat2Z.id. apply firstn_app_exact.
Qed.

Lemma splice_keeps_head l o c r :
  0 <= o <= len l ->
  sub_list (eager_splice l o c r) 0 o = sub_list l 0 o.
Proof.
  intros H. unfold sub_list, eager_splice. simpl.
  pose proof (length_head l o H) as Hh.
  set (h := firstn (Z.to_nat o) l) in *. rewrite <- Hh.
  apply firstn_app_exact.
Qed.

Lemma splice_keeps_tail l o c r k :
  0 <= o <= len l ->
  sub_list (eager_splice l o c r) (o + len r) k = sub_list l (o + c) k.
Proof.
  intros H. unfold sub_list, eager_splice. f_equal.
  replace (Z.to_nat (o + len r))
    with (length (firstn (Z.to_nat o) l ++ r))
    by (rewrite length_app, length_head by assumption; lia).
  rewrite app_assoc. apply skipn_app_exact.
Qed.

Lemma splice_overwrite l o c r r' :
  0 <= o <= len l ->
  eager_splice (eager_splice l o c r) o (len r) r' = eager_splice l o c r'.
Proof.
  intros H. unfold eager_splice.
  pose proof (length_head l o H) as Hh.
  set (h := firstn (Z.to_nat o) l) in *.
  set (y := skipn (Z.to_nat (o + c)) l).
  replace (Z.to_nat (o + len r)) with (length (h ++ r))
    by (rewrite length_app, Hh; lia).
  rewrite <- Hh at 1. rewrite firstn_app_exact.
  rewrite (app_assoc h r y), skipn_app_exact. reflexivity.
Qed.

Lemma splice_own_slice l o c :
  0 <= o -> 0 <= c ->
  eager_splice l o c (sub_list l o c) = l.
Proof.
  intros. unfold sub_list, eager_splice.
  replace (Z.to_nat (o + c)) with (Z.to_nat c + Z.to_nat o)%nat by lia.
  rewrite <- skipn_skipn, firstn_skipn. apply firstn_skipn.
Qed.

Lemma built_toString (a : Array A) :
  built_below cap a -> toString a = Some (contents a).
Proof.
  intros Hb. apply toString_wf. exact (built_wf cap cap_int_cap a cap_pos Hb).
Qed.

Lemma built_len_contents (a : Array A) :
  built_below cap a -> len (contents a) = Count a.
Proof.
  intros Hb. apply (len_contents cap).
  exact (built_wf cap cap_int_cap a cap_pos Hb).
Qed.

Lemma built_Slice_ok (a : Array A) off cnt :
  built_below cap a -> in_bounds (Count a) off cnt ->
  exists b, Slice a off cnt = Ok b /\ built_below cap b /\ Count b = cnt /\
            contents b = sub_list (contents a) off cnt.
Proof.
  intros Hb Hin.
  destruct (Slice_refines cap cap_int_cap a off cnt
              (built_wf cap cap_int_cap a cap_pos Hb) Hin)
    as (b & Hs & _ & Hc & Hcont).
  exists b. repeat split; try assumption.
  exact (built_Slice cap a off cnt b Hb Hin Hs).
Qed.

Lemma built_Splice_ok (a r : Array A) off cnt :
  built_below cap a -> built_below cap r -> in_bounds (Count a) off cnt ->
  Count a + (Count r - cnt) < cap ->
  exists b, Splice a off cnt r = Ok b /\ built_below cap b /\
            Count b = Count a + (Count r - cnt) /\
            contents b = eager_splice (contents a) off cnt (contents r).
Proof.
  intros Ha Hr Hin Hc.
  destruct (Splice_refines cap cap_int_cap a off cnt r
              (built_wf cap cap_int_cap a cap_pos Ha)
              (built_wf cap cap_int_cap r cap_pos Hr) Hin Hc)
    as (b & Hs & _ & Hcb & Hcont).
  exists b. repeat split; try assumption.
  exact (built_Splice cap a off cnt r b Ha Hr Hin Hc Hs).
Qed.

(** X10. Read your write.  After [b := a.Splice(offset, count, r)], on
    nodes built through the API with counts below [2^62]: the slice of
    [b] at [offset] of length [r.Count] flattens to the content of [r];
    the slice of [b] before [offset] flattens to what [a] had there; and
    the slice of [b] after the replacement flattens to what [a] had
    after the replaced range. *)
Theorem read_your_write (a r : Array A) off cnt :
  built_below cap a -> built_below cap r ->
  in_bounds (Count a) off cnt -> Count a + (Count r - cnt) < cap ->
  exists b, Splice a off cnt r = Ok b /\
    (exists m, Slice b off (Count r) = Ok m /\ toString m = toString r) /\
    (exists h h', Slice b 0 off = Ok h /\ Slice a 0 off = Ok h' /\
                  toString h = toString h') /\
    (exists t t',
        Slice b (off + Count r) (Count a - off - cnt) = Ok t /\
        Slice a (off + cnt) (Count a - off - cnt) = Ok t' /\
        toString t = toString t').
Proof.
  intros Ha Hr Hin Hc. pose proof Hin as (Ho & Hcn & Hle).
  destruct (built_Splice_ok a r off cnt Ha Hr Hin Hc)
    as (b & Hb & Hbb & Hcb & Hcont).
  pose proof (built_len_contents a Ha) as Hla.
  pose proof (built_len_contents r Hr) as Hlr.
  assert (0 <= Count r) by lia.
  exists b. split; [assumption|]. split; [|split].
  - destruct (built_Slice_ok b off (Count r) Hbb) as (m & Hm & Hbm & _ & Hcm).
    { unfold in_bounds. lia. }
    exists m. split; [assumption|].
    rewrite (built_toString m Hbm), (built_toString r Hr), Hcm, Hcont.
    rewrite <- Hlr. f_equal. apply splice_reads_replacement. lia.
  - destruct (built_Slice_ok b 0 off Hbb) as (h & Hh & Hbh & _ & Hch).
    { unfold in_bounds. lia. }
    destruct (built_Slice_ok a 0 off Ha) as (h' & Hh' & Hbh' & _ & Hch').
    { unfold in_bounds. lia. }
    exists h, h'. split; [assumption|]. split; [assumption|].
    rewrite (built_toString h Hbh), (built_toString h' Hbh'), Hch, Hch', Hcont.
    f_equal. apply splice_keeps_head. lia.
  - destruct (built_Slice_ok b (off + Count r) (Count a - off - cnt) Hbb)
      as (t & Ht & Hbt & _ & Hct).
    { unfold in_bounds. lia. }
    destruct (built_Slice_ok a (off + cnt) (Count a - off - cnt) Ha)
      as (t' & Ht' & Hbt' & _ & Hct').
    { unfold in_bounds. lia. }
    exists t, t'. split; [assumption|]. split; [assumption|].
    rewrite (built_toString t Hbt), (built_toString t' Hbt'), Hct, Hct', Hcont.
    f_equal. rewrite <- Hlr. apply splice_keeps_tail. lia.
Qed.

(** X11. A splice can be undone.  Splicing the slice that was replaced
    back over the replacement restores the content and the count:
    with [b := a.Splice(offset, count, r)] and
    [old := a.Slice(offset, count)], the node
    [b.Splice(offset, r.Count, old)] flattens to what [a] flattens to. *)
Theorem Splice_undo (a r : Array A) off cnt :
  built_below cap a -> built_below cap r ->
  in_bounds (Count a) off cnt -> Count a + (Count r - cnt) < cap ->
  exists b old u,
    Splice a off cnt r = Ok b /\ Slice a off cnt = Ok old /\
    Splice b off (Count r) old = Ok u /\
    Count u = Count a /\ toString u = toString a.
Proof.
  intros Ha Hr Hin Hc. pose proof Hin as (Ho & Hcn & Hle).
  destruct (built_Splice_ok a r off cnt Ha Hr Hin Hc)
    as (b & Hb & Hbb & Hcb & Hcont).
  destruct (built_Slice_ok a off cnt Ha Hin) as (old & Hold & Hbo & Hco & Hcold).
  pose proof (built_len_contents a Ha) as Hla.
  pose proof (built_len_contents r Hr) as Hlr.
  assert (0 <= Count r) by lia.
  assert (Count a < cap).
  { apply (wf_Count_below cap). exact (built_wf cap cap_int_cap a cap_pos Ha). }
  destruct (built_Splice_ok b old off (Count r) Hbb Hbo)
    as (u & Hu & Hbu & Hcu & Hcontu).
  { unfold in_bounds. lia. }
  { lia. }
  exists b, old, u. repeat (split; [assumption|]). split; [lia|].
  rewrite (built_toString u Hbu), (built_toString a Ha), Hcontu, Hcont, Hcold.
  f_equal. rewrite <- Hlr, splice_overwrite by lia.
  apply splice_own_slice; assumption.
Qed.

(** X12. The last write wins.  Replacing a replacement is replacing the
    original range: [a.Splice(offset, count, r1).Splice(offset,
    r1.Count, r2)] has the count and the flattened content of
    [a.Splice(offset, count, r2)]. *)
Theorem Splice_overwrites (a r1 r2 : Array A) off cnt :
  built_below cap a -> built_below cap r1 -> built_below cap r2 ->
  in_bounds (Count a) off cnt ->
  Count a + (Count r1 - cnt) < cap -> Count a + (Count r2 - cnt) < cap ->
  exists b1 b2 b3,
    Splice a off cnt r1 = Ok b1 /\ Splice b1 off (Count r1) r2 = Ok b2 /\
    Splice a off cnt r2 = Ok b3 /\
    Count b2 = Count b3 /\ toString b2 = toString b3.
Proof.
  intros Ha Hr1 Hr2 Hin Hc1 Hc2. pose proof Hin as (Ho & Hcn & Hle).
  destruct (built_Splice_ok a r1 off cnt Ha Hr1 Hin Hc1)
    as (b1 & Hb1 & Hbb1 & Hcb1 & Hcont1).
  destruct (built_Splice_ok a r2 off cnt Ha Hr2 Hin Hc2)
    as (b3 & Hb3 & Hbb3 & Hcb3 & Hcont3).
  pose proof (built_len_contents a Ha) as Hla.
  pose proof (built_len_contents r1 Hr1) as Hlr1.
  assert (0 <= Count r1) by lia.
  destruct (built_Splice_ok b1 r2 off (Count r1) Hbb1 Hr2)
    as (b2 & Hb2 & Hbb2 & Hcb2 & Hcont2).
  { unfold in_bounds. lia. }
  { lia. }
  exists b1, b2, b3. repeat (split; [assumption|]). split; [lia|].
  rewrite (built_toString b2 Hbb2), (built_toString b3 Hbb3).
  rewrite Hcont2, Hcont3, Hcont1. f_equal.
  rewrite <- Hlr1. apply splice_overwrite. lia.
Qed.

Lemma eager_splice_app (x m y r : list A) :
  eager_splice (x ++ m ++ y) (len x) (len m) r = x ++ r ++ y.
Proof.
  unfold eager_splice. rewrite Nat2Z.id, firstn_app_exact.
  replace (Z.to_nat (len x + len m)) with (length (x ++ m))
    by (rewrite length_app; lia).
  now rewrite (app_assoc x m y), skipn_app_exact.
Qed.

Lemma split_at l k :
  0 <= k <= len l -> exists x y, l = x ++ y /\ len x = k.
Proof.
  intros H. exists (firstn (Z.to_nat k) l), (skipn (Z.to_nat k) l).
  split; [symmetry; apply firstn_skipn|].
  rewrite length_firstn. lia.
Qed.

Lemma disjoint_splices l o1 c1 r1 o2 c2 r2 :
  0 <= o1 -> 0 <= c1 -> o1 + c1 <= o2 -> 0 <= c2 -> o2 + c2 <= len l ->
  eager_splice (eager_splice l o1 c1 r1) (o2 + (len r1 - c1)) c2 r2
  = eager_splice (eager_splice l o2 c2 r2) o1 c1 r1.
Proof.
  intros Ho1 Hc1 Hd Hc2 Hle.
  destruct (split_at l o1) as (h & l1 & -> & Hh); [lia|].
  rewrite length_app in Hle.
  destruct (split_at l1 c1) as (m1 & l2 & -> & Hm1); [lia|].
  rewrite length_app in Hle.
  destruct (split_at l2 (o2 - o1 - c1)) as (g & l3 & -> & Hg); [lia|].
  rewrite length_app in Hle.
  destruct (split_at l3 c2) as (m2 & t & -> & Hm2); [lia|].
  subst o1 c1 c2.
  rewrite (eager_splice_app h m1 (g ++ m2 ++ t) r1).
  replace (o2 + (len r1 - len m1)) with (len (h ++ r1 ++ g))
    by (rewrite !length_app; lia).
  replace (h ++ r1 ++ g ++ m2 ++ t) with ((h ++ r1 ++ g) ++ m2 ++ t)
    by (now rewrite <- !app_assoc).
  rewrite eager_splice_app.
  replace o2 with (len (h ++ m1 ++ g)) by (rewrite !length_app; lia).
  replace (h ++ m1 ++ g ++ m2 ++ t) with ((h ++ m1 ++ g) ++ m2 ++ t)
    by (now rewrite <- !app_assoc).
  rewrite eager_splice_app.
  replace ((h ++ m1 ++ g) ++ r2 ++ t) with (h ++ m1 ++ (g ++ r2 ++ t))
    by (now rewrite <- !app_assoc).
  rewrite eager_splice_app. now rewrite <- !app_assoc.
Qed.

(** X13. Splices of disjoint ranges commute.  Replacing
    [[o1, o1+c1)] and then the later range [[o2, o2+c2)] - found
    [r1.Count - c1] further along after the first splice - gives the
    count and the flattened content of replacing the later range first
    and the earlier one second. *)
Theorem disjoint_Splices_commute (a r1 r2 : Array A) o1 c1 o2 c2 :
  built_below cap a -> built_below cap r1 -> built_below cap r2 ->
  0 <= o1 -> 0 <= c1 -> o1 + c1 <= o2 -> 0 <= c2 -> o2 + c2 <= Count a ->
  Count a + Count r1 + Count r2 < cap ->
  exists b1 b12 b2 b21,
    Splice a o1 c1 r1 = Ok b1 /\
    Splice b1 (o2 + (Count r1 - c1)) c2 r2 = Ok b12 /\
    Splice a o2 c2 r2 = Ok b2 /\
    Splice b2 o1 c1 r1 = Ok b21 /\
    Count b12 = Count b21 /\ toString b12 = toString b21.
Proof.
  intros Ha Hr1 Hr2 Ho1 Hc1 Hd Hc2 Hle Hcap.
  pose proof (built_len_contents a Ha) as Hla.
  pose proof (built_len_contents r1 Hr1) as Hl1.
  pose proof (built_len_contents r2 Hr2) as Hl2.
  assert (0 <= Count r1) by lia. assert (0 <= Count r2) by lia.
  destruct (built_Splice_ok a r1 o1 c1 Ha Hr1)
    as (b1 & Hb1 & Hbb1 & Hcb1 & Hcont1);
    [unfold in_bounds; lia|lia|].
  destruct (built_Splice_ok b1 r2 (o2 + (Count r1 - c1)) c2 Hbb1 Hr2)
    as (b12 & Hb12 & Hbb12 & Hcb12 & Hcont12);
    [unfold in_bounds; lia|lia|].
  destruct (built_Splice_ok a r2 o2 c2 Ha Hr2)
    as (b2 & Hb2 & Hbb2 & Hcb2 & Hcont2);
    [unfold in_bounds; lia|lia|].
  destruct (built_Splice_ok b2 r1 o1 c1 Hbb2 Hr1)
    as (b21 & Hb21 & Hbb21 & Hcb21 & Hcont21);
    [unfold in_bounds; lia|lia|].
  exists b1, b12, b2, b21. repeat (split; [assumption|]).
  split; [lia|].
  rewrite (built_toString b12 Hbb12), (built_toString b21 Hbb21).
  rewrite Hcont12, Hcont21, Hcont1, Hcont2. f_equal.
  rewrite <- Hl1. apply disjoint_splices; lia.
Qed.

End RoundTrips.

(** ** The string reference *)

Section StringReference.

Context {A : Type}.

Local Abbreviation len l := (Z.of_nat (List.length l)) (only parsing).

Lemma go_slice_Ok (s x : list A) lo hi :
  go_slice s lo hi = Ok x <->
  0 <= lo <= hi /\ hi <= len s /\ x = sub_list s lo (hi - lo).
Proof.
  unfold go_slice.
  destruct (Z.leb_spec 0 lo), (Z.leb_spec lo hi), (Z.leb_spec hi (len s));
    simpl; split; try (intros [= <-]; repeat split; lia);
    try discriminate; try lia.
  intros (_ & _ & ->). reflexivity.
Qed.

Lemma tail_as_sub_list (s : list A) k :
  0 <= k -> sub_list s k (len s - k) = skipn (Z.to_nat k) s.
Proof.
  intros. unfold sub_list. apply firstn_all2. rewrite length_skipn. lia.
Qed.

Lemma string_splice_Ok (s r x : list A) off cnt :
  in_range (off + cnt) ->
  string_splice s off cnt r = Ok x <->
  0 <= off <= len s /\ 0 <= off + cnt <= len s /\
  x = eager_splice s off cnt r.
Proof.
  intros Hr. unfold string_splice. rewrite add_small by assumption.
  destruct (go_slice s 0 off) as [h|e] eqn:Hh.
  - apply go_slice_Ok in Hh as (Ho & Hl & ->).
    destruct (go_slice s (off + cnt) (len s)) as [t|e] eqn:Ht.
    + apply go_slice_Ok in Ht as (Hk & _ & ->).
      rewrite tail_as_sub_list by lia. rewrite Z.sub_0_r.
      unfold eager_splice, sub_list. simpl skipn.
      split; [intros [= <-]; repeat split; lia|].
      intros (_ & _ & ->). reflexivity.
    + split; [discriminate|]. intros (_ & Hk & _). exfalso.
      assert (Hok : go_slice s (off + cnt) (len s)
                    = Ok (sub_list s (off + cnt) (len s - (off + cnt)))).
      { apply go_slice_Ok. repeat split; lia. }
      congruence.
  - split; [discriminate|]. intros (Ho & _ & _). exfalso.
    assert (Hok : go_slice s 0 off = Ok (sub_list s 0 (off - 0))).
    { apply go_slice_Ok. repeat split; lia. }
    congruence.
Qed.

(** X14. The payload's own [Splice] - the string reference.  It
    returns exactly when the replacement is a [Slicer] and both
    [offset] and [offset+count] lie within [[0, len(s)]], and then it
    is head, replacement, tail.  Its guard is not the engine's: a
    negative [count] is accepted as long as [offset+count] is not
    negative, and then the tail repeats the [-count] bytes before
    [offset]. *)
Theorem Slicer_Splice_spec (s x : list A) off cnt (v : value A) :
  in_range (off + cnt) ->
  Slicer_Splice s off cnt v = Ok x <->
  exists r, v = VSlicer r /\
            0 <= off <= len s /\ 0 <= off + cnt <= len s /\
            x = firstn (Z.to_nat off) s ++ r
                  ++ skipn (Z.to_nat (off + cnt)) s.
Proof.
  intros Hr. destruct v as [|r|a]; simpl.
  - split; [discriminate|]. intros (r & [=] & _).
  - rewrite string_splice_Ok by assumption. unfold eager_splice. split.
    + intros (H1 & H2 & ->). exists r. auto.
    + intros (r' & [= <-] & H1 & H2 & ->). auto.
  - split; [discriminate|]. intros (r & [=] & _).
Qed.

End StringReference.

(** ** The randomized test and the benchmarks *)

Section RandomRuns.

Variable rng : Type.
Variable seeded : rng.
Variable Intn : rng -> Z -> Z * rng.
Variable maxAlloc : Z.

(** [rand.Intn(n)] answers a number of [[0, n)]. *)
Hypothesis Intn_range : forall g n, 0 < n -> 0 <= fst (Intn g n) < n.

Local Abbreviation len l := (Z.of_nat (List.length l)) (only parsing).

Lemma rand_Intn_ok g n :
  0 < n ->
  exists x g', rand_Intn rng Intn g n = Continue (x, g') /\ 0 <= x < n.
Proof.
  intros Hn. unfold rand_Intn.
  destruct (Z.ltb_spec 0 n); [|lia].
  pose proof (Intn_range g n Hn) as Hx.
  destruct (Intn g n) as [x g']. exists x, g'. auto.
Qed.

(** The loop of [benchmarkRun] keeps any invariant the [splice]
    closure keeps on in-bounds windows and one-byte replacements, and
    only asks for such windows; [size] never exceeds its start plus the
    number of iterations. *)
Lemma iterate_runs {S : Type}
    (splice : S -> Z -> Z -> list ascii -> outcome S)
    (Inv : S -> Z -> Prop) (K : Z) :
  K <= max_int ->
  (forall st size off cnt v,
      Inv st size -> in_bounds size off cnt -> len v = 1 -> size < K ->
      exists st', splice st off cnt v = Continue st' /\
                  Inv st' (size + 1 - cnt)) ->
  forall n st size g,
    Inv st size -> 0 <= size -> size + Z.of_nat n <= K ->
    exists st' size',
      iterate rng Intn splice n st size g = Continue (st', size') /\
      Inv st' size' /\ 0 <= size' <= size + Z.of_nat n.
Proof.
  intros HK Hstep. induction n as [|n IH]; intros st size g Hinv H0 Hle.
  - exists st, size. simpl. repeat split; try assumption; lia.
  - cbn [iterate].
    destruct (rand_Intn_ok g 26) as (x & g1 & -> & Hx); [lia|].
    cbn [bind].
    assert (Hoff : exists off g2,
               (if 0 <? size then rand_Intn rng Intn g1 size
                else Continue (0, g1)) = Continue (off, g2) /\
               0 <= off /\ (off < size \/ (off = 0 /\ size = 0))).
    { destruct (Z.ltb_spec 0 size).
      - destruct (rand_Intn_ok g1 size) as (o & g2 & -> & Ho); [lia|].
        exists o, g2. repeat split; lia.
      - exists 0, g1. repeat split; lia. }
    destruct Hoff as (off & g2 & -> & Ho0 & Ho). cbn [bind].
    rewrite sub_small by (unfold in_range, min_int, max_int in *; lia).
    set (diff := if 100 <? size - off then 100 else size - off).
    assert (Hdiff : diff <= size - off /\ (0 < size - off -> 0 < diff)).
    { subst diff. destruct (Z.ltb_spec 100 (size - off)); lia. }
    assert (Hcnt : exists cnt g3,
               (if 0 <? diff then rand_Intn rng Intn g2 diff
                else Continue (0, g2)) = Continue (cnt, g3) /\
               0 <= cnt /\ off + cnt <= size).
    { destruct (Z.ltb_spec 0 diff).
      - destruct (rand_Intn_ok g2 diff) as (c & g3 & -> & Hc); [lia|].
        exists c, g3. repeat split; lia.
      - exists 0, g2. repeat split; lia. }
    destruct Hcnt as (cnt & g3 & -> & Hc0 & Hc). cbn [bind].
    destruct (Hstep st size off cnt (randAlpha x) Hinv) as (st1 & -> & Hinv1).
    { unfold in_bounds. lia. }
    { reflexivity. }
    { lia. }
    cbn [bind].
    rewrite (sub_small 1 cnt)
      by (unfold in_range, min_int, max_int in *; lia).
    rewrite add_small by (unfold in_range, min_int, max_int in *; lia).
    replace (size + (1 - cnt)) with (size + 1 - cnt) by lia.
    destruct (IH st1 (size + 1 - cnt) g3 Hinv1) as (st' & size' & Hrun & Hi & Hs);
      [lia|lia|].
    exists st', size'. repeat split; try assumption; lia.
Qed.

(** *** The closures *)

Lemma built_limited r : len r < cap -> built_below cap (limited r).
Proof. intros. apply built_leaf; lia. Qed.

Lemma contents_limited r : contents (limited r) = r.
Proof. apply sub_list_all. Qed.

Lemma collect_built a :
  built_below cap a -> collect a = Continue (contents a).
Proof.
  intros Hb.
  destruct (ForEach_wf a (built_wf cap cap_int_cap a cap_pos Hb))
    as (es & Hes & _ & Hseg & _).
  unfold collect. rewrite Hes. now rewrite Hseg.
Qed.

Lemma depth_nonneg {A} (a : Array A) : 0 <= depth a.
Proof.
  apply (Array_value_ind (fun a => 0 <= depth a)
           (fun v => match v with VArray b => 0 <= depth b | _ => True end));
    try (intros; exact I).
  - intros l n [| |b] o rc H; [simpl; lia..|].
    rewrite depth_VArray. lia.
  - intros l n [| |b] o rc r H _; [simpl; lia..|].
    rewrite depth_VArray. lia.
  - auto.
Qed.

Lemma budgeted_limited r : len r < cap -> budgeted (limited r) (len r).
Proof.
  intros. split; [now apply built_limited|].
  unfold limited, leaf, limit. simpl. repeat split; lia.
Qed.

(** The lazy part of both closures: the splice, and the flattening
    when the limit is used up. *)
Lemma lazy_splice_step a size off cnt v :
  budgeted a size -> in_bounds size off cnt -> len v = 1 ->
  size < cap - 1 ->
  exists b, Splice a off cnt (limited v) = Ok b /\
            built_below cap b /\ Count b = size + 1 - cnt /\
            contents b = eager_splice (contents a) off cnt v /\
            0 <= Limit b /\
            (1 <= Limit b -> budgeted b (size + 1 - cnt)).
Proof.
  intros (Hb & Hn & Hbud & Hpos) Hin Hv Hsize. subst size.
  pose proof Hin as (Ho & Hc & Hle).
  destruct (built_Splice_ok a (limited v) off cnt Hb) as
    (b & Hs & Hbb & Hcb & Hcont).
  { apply built_limited. unfold cap. lia. }
  { assumption. }
  { simpl. lia. }
  exists b. rewrite contents_limited in Hcont. simpl Count in Hcb.
  split; [assumption|]. split; [assumption|].
  split; [lia|]. split; [assumption|].
  destruct (Splice_budget a (limited v) b off cnt) as [->|[(Hl & Hd)|(Hl & Hd)]];
    try assumption.
  - unfold in_range, min_int, max_int, limit in *.
    pose proof (wf_Count_nonneg cap a
                  (built_wf cap cap_int_cap a cap_pos Hb)).
    pose proof (depth_nonneg a).
    lia.
  - simpl. split; [unfold limit; lia|]. intros _.
    rewrite <- Hv. replace (Count a + len v - cnt) with (len v).
    + apply budgeted_limited. unfold cap. lia.
    + simpl in Hcb. lia.
  - split; [lia|]. intros _. repeat split; try assumption; lia.
  - split; [lia|]. intros H1. repeat split; try assumption; lia.
Qed.

Lemma TestRandomSplices_step st size off cnt v :
  (budgeted (fst st) size /\ contents (fst st) = snd st) ->
  in_bounds size off cnt -> len v = 1 -> size < cap - 1 ->
  exists st', TestRandomSplices_splice st off cnt v = Continue st' /\
              (budgeted (fst st') (size + 1 - cnt) /\
               contents (fst st') = snd st').
Proof.
  destruct st as [a s]. cbn [fst snd]. intros (Hbud & Hs) Hin Hv Hsize.
  pose proof Hbud as (Hb & Hn & _).
  pose proof (built_len_contents a Hb) as Hlen.
  pose proof Hin as (Ho & Hc & Hle).
  destruct (lazy_splice_step a size off cnt v Hbud Hin Hv Hsize)
    as (b & Hsp & Hbb & Hcb & Hcont & Hl0 & Hkeep).
  unfold TestRandomSplices_splice.
  assert (Hss : string_splice s off cnt v = Ok (eager_splice s off cnt v)).
  { apply string_splice_Ok.
    - unfold in_range, min_int, max_int, cap in *. lia.
    - subst s. repeat split; lia. }
  rewrite Hss, Hsp. cbn [lift bind].
  assert (Hfin : forall c,
             budgeted c (size + 1 - cnt) ->
             contents c = eager_splice s off cnt v ->
             exists st',
               (x <- collect c ;;
                if list_eq_dec ascii_dec x (eager_splice s off cnt v)
                then Continue (c, eager_splice s off cnt v)
                else a6 <- lift (Slice c 0 6) ;; _ <- collect a6 ;; Fatal)%outcome
               = Continue st' /\
               (budgeted (fst st') (size + 1 - cnt) /\
                contents (fst st') = snd st')).
  { intros c Hc' Hcc. destruct Hc' as (Hbc & Hrest).
    rewrite (collect_built c Hbc). cbn [bind]. rewrite Hcc.
    destruct (list_eq_dec ascii_dec _ _) as [_|Hne]; [|congruence].
    eexists. split; [reflexivity|]. cbn [fst snd].
    split; [split; assumption|assumption]. }
  destruct (Z.leb_spec (Limit b) 0) as [Hzero|Hsome].
  - rewrite (collect_built b Hbb). cbn [bind].
    pose proof (built_len_contents b Hbb) as Hlb.
    pose proof (wf_Count_below cap b (built_wf cap cap_int_cap b cap_pos Hbb)).
    apply Hfin.
    + rewrite <- Hcb, <- Hlb. apply budgeted_limited. lia.
    + change (contents (limited (contents b)) = eager_splice s off cnt v).
      rewrite contents_limited. now rewrite Hcont, Hs.
  - cbn [bind]. apply Hfin; [apply Hkeep; lia|now rewrite Hcont, Hs].
Qed.

Lemma BenchmarkLazy_step a size off cnt v :
  budgeted a size -> in_bounds size off cnt -> len v = 1 ->
  size < cap - 1 ->
  exists a', BenchmarkLazy_splice a off cnt v = Continue a' /\
             budgeted a' (size + 1 - cnt).
Proof.
  intros Hbud Hin Hv Hsize.
  destruct (lazy_splice_step a size off cnt v Hbud Hin Hv Hsize)
    as (b & Hsp & Hbb & Hcb & Hcont & Hl0 & Hkeep).
  unfold BenchmarkLazy_splice. rewrite Hsp. cbn [lift bind].
  destruct (Z.leb_spec (Limit b) 0) as [Hzero|Hsome].
  - pose proof (built_wf cap cap_int_cap b cap_pos Hbb) as Hwf.
    pose proof (wf_Count_nonneg cap b Hwf).
    pose proof (wf_Count_below cap b Hwf).
    pose proof (built_len_contents b Hbb) as Hlb.
    destruct (Z.ltb_spec (Count b) 0); [lia|]. cbn [bind].
    rewrite (collect_built b Hbb). cbn [bind].
    eexists. split; [reflexivity|].
    rewrite <- Hcb, <- Hlb. apply budgeted_limited. lia.
  - exists b. split; [reflexivity|]. apply Hkeep. lia.
Qed.

Lemma BenchmarkString_step (s : list ascii) size off cnt v :
  len s = size -> in_bounds size off cnt -> len v = 1 ->
  size < cap - 1 ->
  exists s', BenchmarkString_splice s off cnt v = Continue s' /\
             len s' = size + 1 - cnt.
Proof.
  intros Hs (Ho & Hc & Hle) Hv Hsize.
  unfold BenchmarkString_splice.
  assert (Hss : string_splice s off cnt v = Ok (eager_splice s off cnt v)).
  { apply string_splice_Ok.
    - unfold in_range, min_int, max_int, cap in *. lia.
    - repeat split; lia. }
  rewrite Hss. eexists. split; [reflexivity|].
  rewrite len_eager_splice by (unfold in_bounds; lia). lia.
Qed.

Lemma cap_max_int : cap - 1 <= max_int.
Proof. unfold cap, max_int. lia. Qed.

Lemma random_splices_run (str : list ascii) (iter : Z) :
  0 <= iter -> len str + iter < cap ->
  exists st size,
    benchmarkRun rng seeded Intn iter
      TestRandomSplices_init TestRandomSplices_splice str
    = Continue (st, size) /\
    (budgeted (fst st) size /\ contents (fst st) = snd st) /\
    0 <= size <= len str + iter.
Proof.
  intros Hi Hlen. unfold benchmarkRun.
  destruct (iterate_runs TestRandomSplices_splice
              (fun st size => budgeted (fst st) size /\
                              contents (fst st) = snd st)
              (cap - 1) cap_max_int TestRandomSplices_step
              (Z.to_nat iter) (TestRandomSplices_init str) (len str) seeded)
    as (st & size & Hrun & Hinv & Hsz).
  - split; [apply budgeted_limited; lia|apply contents_limited].
  - lia.
  - lia.
  - exists st, size. split; [assumption|]. split; [assumption|lia].
Qed.

(** X15. The randomized run keeps the lazy array and the string in
    step, whatever the random numbers.  Started on a string [str] and
    run for [iter] iterations, with [len(str) + iter] below [2^62],
    [benchmarkRun] with the closures of [TestRandomSplices] neither
    panics nor reaches [t.Fatal]; at the end the array flattens to the
    string, [size] is the length of both, and the flattening policy has
    kept the limit within [[1, 10]] and the nesting depth at
    [10 - Limit]. *)
Theorem random_splices_agree (str : list ascii) (iter : Z) :
  0 <= iter -> len str + iter < cap ->
  exists a s size,
    benchmarkRun rng seeded Intn iter
      TestRandomSplices_init TestRandomSplices_splice str
    = Continue ((a, s), size) /\
    toString a = Some s /\ Count a = size /\ len s = size /\
    size <= len str + iter /\
    1 <= Limit a <= 10 /\ depth a = 10 - Limit a.
Proof.
  intros Hi Hlen.
  destruct (random_splices_run str iter Hi Hlen)
    as ([a s] & size & Hrun & ((Hb & Hn & Hbud & Hpos) & Hs) & Hsz).
  cbn [fst snd] in *. exists a, s, size.
  split; [assumption|].
  pose proof (built_len_contents a Hb).
  pose proof (depth_nonneg a).
  unfold limit in *.
  rewrite (built_toString a Hb), Hs.
  repeat split; try lia. congruence.
Qed.

Lemma random_bytes_ok n g :
  exists b g', random_bytes rng Intn n g = Continue (b, g') /\
               length b = n.
Proof.
  revert g. induction n as [|n IH]; intros g.
  - exists [], g. auto.
  - cbn [random_bytes].
    destruct (rand_Intn_ok g (len letters)) as (x & g1 & -> & Hx);
      [simpl; lia|].
    cbn [bind].
    destruct (Z.leb_spec 0 x); [|lia].
    destruct (nth_error letters (Z.to_nat x)) as [c|] eqn:Hc.
    + destruct (IH g1) as (b & g2 & -> & Hb). cbn [bind].
      exists (c :: b), g2. simpl. auto.
    + apply nth_error_None in Hc. lia.
Qed.

Lemma initRandomString_ok size :
  0 <= size <= maxAlloc ->
  exists b, initRandomString rng seeded Intn maxAlloc size = Continue b /\
            len b = size.
Proof.
  intros. unfold initRandomString.
  destruct (Z.ltb_spec size 0); [lia|].
  destruct (Z.ltb_spec maxAlloc size); [lia|]. cbn [orb].
  destruct (random_bytes_ok (Z.to_nat size) seeded) as (b & g & -> & Hb).
  exists b. split; [reflexivity|lia].
Qed.

(** X16. [TestRandomSplices] passes for every random number generator,
    whenever [make] accepts the two lengths it is asked for, 10 and
    [strlen]: the ten random bytes, the 500000 random splices with a
    comparison after each, and the deferred [initRandomString(strlen)]
    all complete, without a panic and without [t.Fatal]. *)
Theorem TestRandomSplices_passes (strlen : Z) :
  10 <= maxAlloc -> 0 <= strlen <= maxAlloc ->
  TestRandomSplices rng seeded Intn maxAlloc strlen = Continue tt.
Proof.
  intros Hm Hs. unfold TestRandomSplices.
  destruct (initRandomString_ok 10) as (str & -> & Hstr); [lia|].
  cbn [bind].
  destruct (random_splices_run str 500000) as (st & size & -> & _);
    [lia|unfold cap; lia|].
  destruct (initRandomString_ok strlen Hs) as (b & -> & _).
  reflexivity.
Qed.

Lemma repeat_runs_ok {S : Type} (init : list ascii -> S)
    (splice : S -> Z -> Z -> list ascii -> outcome S) (str : list ascii) :
  (exists r, benchmarkRun rng seeded Intn 100 init splice str = Continue r) ->
  forall n, repeat_runs rng seeded Intn n init splice str = Continue tt.
Proof.
  intros (r & Hr). induction n as [|n IH]; [reflexivity|].
  cbn [repeat_runs]. rewrite Hr. exact IH.
Qed.

(** X17. The benchmarks run to completion.  For every [b.N], every
    random number generator and every [largeRandomString] with
    [len + 100] below [2^62], neither [BenchmarkLazy] (whose flattened
    node takes [a.Count] for its count, after [Grow(a.Count)]) nor
    [BenchmarkString] panics. *)
Theorem benchmarks_complete (N : Z) (str : list ascii) :
  len str + 100 < cap ->
  BenchmarkLazy rng seeded Intn N str = Continue tt /\
  BenchmarkString rng seeded Intn N str = Continue tt.
Proof.
  intros Hlen. split.
  - apply repeat_runs_ok. unfold benchmarkRun.
    destruct (iterate_runs BenchmarkLazy_splice budgeted
                (cap - 1) cap_max_int BenchmarkLazy_step
                (Z.to_nat 100) (BenchmarkLazy_init str) (len str) seeded)
      as (st & size & Hrun & _).
    + apply budgeted_limited. lia.
    + lia.
    + lia.
    + eauto.
  - apply repeat_runs_ok. unfold benchmarkRun.
    destruct (iterate_runs BenchmarkString_splice
                (fun s size => len s = size)
                (cap - 1) cap_max_int BenchmarkString_step
                (Z.to_nat 100) (BenchmarkString_init str) (len str) seeded)
      as (st & size & Hrun & _).
    + reflexivity.
    + lia.
    + lia.
    + eauto.
Qed.

End RandomRuns.

(** ** The traversal is local *)

Section Locality.

Context {A : Type}.

Local Abbreviation len l := (Z.of_nat (List.length l)) (only parsing).

Lemma observable_emit n off cnt (t : trace A) :
  observable (emit (Window n off cnt) t) = observable t.
Proof. destruct t. reflexivity. Qed.

Lemma observable_skip_l (t1 t2 : trace A) :
  observable t1 = ([], None) -> observable (andThen t1 t2) = observable t2.
Proof.
  destruct t1 as [e1 [p|]], t2 as [e2 p2]; unfold observable; simpl;
    intros H; [discriminate H|].
  injection H as H. now rewrite calls_app, H.
Qed.

Lemma observable_skip_r (t1 t2 : trace A) :
  observable t2 = ([], None) -> observable (andThen t1 t2) = observable t1.
Proof.
  destruct t1 as [e1 [p|]], t2 as [e2 p2]; unfold observable; simpl;
    intros [= H ->]; [reflexivity|].
  now rewrite calls_app, H, app_nil_r.
Qed.

Lemma forEach_nothing (v : value A) off : forEach v off 0 = done.
Proof. destruct v; reflexivity. Qed.

Lemma Array_forEach_nothing (a : Array A) off :
  observable (Array_forEach a off 0) = ([], None).
Proof. destruct a as [l n v o rc [r|]]; reflexivity. Qed.

(** X18. The traversal of a window of a splice-view only goes where
    the window lies.  On a node built through the API with counts below
    [2^62], a window that ends before the replacement is served by the
    base value alone, a window inside the replacement by the
    replacement alone (shifted by [offset]), and a window that starts
    after the replacement by the base value alone, shifted by the
    difference between what was removed and what was inserted. *)
Theorem traversal_is_local (a r : Array A) off cnt :
  built_below cap a -> replacement a = Some r ->
  in_bounds (Count a) off cnt ->
  (off + cnt <= offset a ->
   observable (Array_forEach a off cnt)
   = observable (forEach (Value a) off cnt)) /\
  (offset a <= off -> off + cnt <= offset a + Count r ->
   observable (Array_forEach a off cnt)
   = observable (Array_forEach r (off - offset a) cnt)) /\
  (offset a + Count r <= off ->
   observable (Array_forEach a off cnt)
   = observable (forEach (Value a) (off - Count r + rcount a) cnt)).
Proof.
  intros Hb Hr (Ho & Hc & Hle).
  pose proof (built_wf cap cap_int_cap a cap_pos Hb) as Hwf.
  destruct a as [l n v o rc [r0|]]; [|discriminate].
  injection Hr as ->. cbn [Count offset Value rcount] in *.
  destruct Hwf as (Hwr & Ho0 & Hrc & Hor & Hv & Hn & Hprov).
  pose proof (wf_Count_nonneg cap r Hwr) as Hr0.
  unfold cap in *.
  assert (Hzero : cnt = 0 ->
            observable (Array_forEach (mkArray l n v o rc (Some r)) off cnt)
            = ([], None)).
  { intros ->. reflexivity. }
  destruct (Z.eq_dec cnt 0) as [Hz|Hnz].
  { rewrite (Hzero Hz). subst cnt. rewrite !forEach_nothing.
    rewrite Array_forEach_nothing. auto. }
  assert (Hcz : (cnt =? 0) = false) by now apply Z.eqb_neq.
  cbn [Array_forEach]. rewrite Hcz, observable_emit.
  rewrite (add_small o (Count r))
    by (unfold in_range, min_int, max_int; lia).
  rewrite !intersect_exact by (unfold cap; lia).
  split; [|split].
  - intros H1.
    destruct (Z.ltb_spec (Z.max off 0) (Z.min (off + cnt) (0 + o))); [|lia].
    destruct (Z.ltb_spec (Z.max off o) (Z.min (off + cnt) (o + Count r)));
      [lia|].
    destruct (Z.ltb_spec (Z.max off (o + Count r))
                (Z.min (off + cnt) (o + Count r + n))); [lia|].
    rewrite observable_skip_r.
    + f_equal. f_equal; lia.
    + rewrite observable_skip_l by apply Array_forEach_nothing.
      now rewrite forEach_nothing.
  - intros H1 H2.
    destruct (Z.ltb_spec (Z.max off 0) (Z.min (off + cnt) (0 + o))); [lia|].
    destruct (Z.ltb_spec (Z.max off o) (Z.min (off + cnt) (o + Count r)));
      [|lia].
    destruct (Z.ltb_spec (Z.max off (o + Count r))
                (Z.min (off + cnt) (o + Count r + n))); [lia|].
    rewrite forEach_nothing, observable_skip_l by reflexivity.
    rewrite observable_skip_r by now rewrite forEach_nothing.
    rewrite sub_small by (unfold in_range, min_int, max_int; lia).
    f_equal. f_equal; lia.
  - intros H1.
    destruct (Z.ltb_spec (Z.max off 0) (Z.min (off + cnt) (0 + o))); [lia|].
    destruct (Z.ltb_spec (Z.max off o) (Z.min (off + cnt) (o + Count r)));
      [lia|].
    destruct (Z.ltb_spec (Z.max off (o + Count r))
                (Z.min (off + cnt) (o + Count r + n))); [|lia].
    rewrite forEach_nothing, observable_skip_l by reflexivity.
    rewrite observable_skip_l by apply Array_forEach_nothing.
    rewrite sub_small by (unfold in_range, min_int, max_int; lia).
    rewrite add_small.
    + f_equal. f_equal; lia.
    + unfold in_range, min_int, max_int. lia.
Qed.

End Locality.

(** ** The further properties on concrete runs *)

Section FurtherRuns.

Import TestArray.

Local Abbreviation len l := (Z.of_nat (List.length l)) (only parsing).

Lemma intersect_overlap_witness :
  in_range 2 /\ in_range 5 /\ in_range 4 /\ in_range 6 /\
  in_range (2 + 5) /\ in_range (4 + 6) /\
  let (s, c) := intersect 2 5 4 6 in
  (forall p, s <= p < s + c <-> (2 <= p < 2 + 5 /\ 4 <= p < 4 + 6)) /\
  ((forall p, ~ (2 <= p < 2 + 5 /\ 4 <= p < 4 + 6)) -> s = 0 /\ c = 0).
Proof.
  assert (H1 : in_range 2) by by_compute.
  assert (H2 : in_range 5) by by_compute.
  assert (H3 : in_range 4) by by_compute.
  assert (H4 : in_range 6) by by_compute.
  assert (H5 : in_range (2 + 5)) by by_compute.
  assert (H6 : in_range (4 + 6)) by by_compute.
  repeat (split; [assumption|]).
  exact (intersect_overlap 2 5 4 6 H1 H2 H3 H4 H5 H6).
Defined.

Lemma zones_split_window_witness :
  0 <= 2 /\ 0 <= 3 /\ 2 + 3 <= 10 /\ 10 < cap /\
  0 <= 1 /\ 0 <= 8 /\ 1 + 8 <= 10 /\
  snd (intersect 1 8 0 2) + snd (intersect 1 8 2 3)
  + snd (intersect 1 8 (add 2 3) 10) = 8.
Proof.
  assert (H1 : 0 <= 2) by lia.
  assert (H2 : 0 <= 3) by lia.
  assert (H3 : 2 + 3 <= 10) by lia.
  assert (H4 : 10 < cap) by by_compute.
  assert (H5 : 0 <= 1) by lia.
  assert (H6 : 0 <= 8) by lia.
  assert (H7 : 1 + 8 <= 10) by lia.
  repeat (split; [assumption|]).
  exact (zones_split_window 10 2 3 1 8 H1 H2 H3 H4 H5 H6 H7).
Defined.

Lemma Slice_is_deferred_window_witness :
  in_range 2 /\
  Slice jimbo 2 2 = Ok (get nothing (Slice jimbo 2 2)) /\
  calls (fst (ForEach (get nothing (Slice jimbo 2 2))))
  = calls (fst (Array_forEach jimbo 2 2)) /\
  snd (ForEach (get nothing (Slice jimbo 2 2)))
  = snd (Array_forEach jimbo 2 2).
Proof.
  assert (H1 : in_range 2) by by_compute.
  assert (H2 : Slice jimbo 2 2 = Ok (get nothing (Slice jimbo 2 2)))
    by reflexivity.
  repeat (split; [assumption|]).
  exact (Slice_is_deferred_window jimbo _ 2 2 H1 H2).
Defined.

Lemma Slice_of_Slice_witness :
  Count jimbo <= max_int /\ in_bounds (Count jimbo) 1 4 /\
  in_bounds 4 1 2 /\
  Slice jimbo 1 4 = Ok (get nothing (Slice jimbo 1 4)) /\
  (2 <> 0 \/ replacement jimbo = None) /\
  Slice (get nothing (Slice jimbo 1 4)) 1 2 = Slice jimbo (1 + 1) 2.
Proof.
  assert (H1 : Count jimbo <= max_int) by by_compute.
  assert (H2 : in_bounds (Count jimbo) 1 4) by by_compute.
  assert (H3 : in_bounds 4 1 2) by by_compute.
  assert (H4 : Slice jimbo 1 4 = Ok (get nothing (Slice jimbo 1 4)))
    by reflexivity.
  assert (H5 : 2 <> 0 \/ replacement jimbo = None) by (left; lia).
  repeat (split; [assumption|]).
  exact (Slice_of_Slice jimbo _ 1 4 1 2 H1 H2 H3 H4 H5).
Defined.

Lemma ForEach_ignores_limits_witness :
  forget_limits (newArray "hello") = forget_limits (limited (str "hello")) /\
  ForEach (newArray "hello") = ForEach (limited (str "hello")).
Proof.
  assert (H1 : forget_limits (newArray "hello")
               = forget_limits (limited (str "hello"))) by reflexivity.
  split; [assumption|].
  exact (ForEach_ignores_limits _ _ H1).
Defined.

Lemma Limit_counts_nesting_witness :
  in_range (Limit jello - 1) /\
  Splice jello 1 3 (newArray "imb") = Ok jimbo /\
  (jimbo = newArray "imb" \/
   Limit jimbo + depth jimbo = Limit jello + depth jello).
Proof.
  assert (H1 : in_range (Limit jello - 1)) by by_compute.
  assert (H2 : Splice jello 1 3 (newArray "imb") = Ok jimbo) by reflexivity.
  repeat (split; [assumption|]).
  exact (proj2 (Limit_counts_nesting jello jimbo 1 3 H1) (newArray "imb") H2).
Defined.

Lemma calls_at_most_Count_witness :
  built_below cap jimbo /\
  exists es, ForEach jimbo = (es, None) /\ len (calls es) <= Count jimbo.
Proof.
  split; [exact built_jimbo|exact (calls_at_most_Count jimbo built_jimbo)].
Defined.

Lemma unchecked_leaf_panics_witness :
  in_range 9 /\ (9 < 0 \/ len (str "hello") < 9) /\
  ForEach (mkArray 0 9 (VSlicer (str "hello")) 0 0 None)
  = ([Window 9 0 9], Some (SliceBounds (len (str "hello")) 0 9)) /\
  ForEach (A:=ascii) (mkArray 0 9 VNil 0 0 None)
  = ([Window 9 0 9], Some NotASlicer).
Proof.
  assert (H1 : in_range 9) by by_compute.
  assert (H2 : 9 < 0 \/ len (str "hello") < 9) by (right; by_compute).
  repeat (split; [assumption|]).
  exact (unchecked_leaf_panics 0 9 (str "hello") H1 H2).
Defined.

Lemma read_your_write_witness :
  built_below cap jello /\ built_below cap (newArray "imb") /\
  in_bounds (Count jello) 1 3 /\
  Count jello + (Count (newArray "imb") - 3) < cap /\
  exists b, Splice jello 1 3 (newArray "imb") = Ok b /\
    (exists m, Slice b 1 (Count (newArray "imb")) = Ok m /\
               toString m = toString (newArray "imb")) /\
    (exists h h', Slice b 0 1 = Ok h /\ Slice jello 0 1 = Ok h' /\
                  toString h = toString h') /\
    (exists t t',
        Slice b (1 + Count (newArray "imb")) (Count jello - 1 - 3) = Ok t /\
        Slice jello (1 + 3) (Count jello - 1 - 3) = Ok t' /\
        toString t = toString t').
Proof.
  assert (H1 : built_below cap (newArray "imb"))
    by (apply built_newArray; by_compute).
  assert (H2 : in_bounds (Count jello) 1 3) by by_compute.
  assert (H3 : Count jello + (Count (newArray "imb") - 3) < cap)
    by by_compute.
  split; [exact built_jello|]. repeat (split; [assumption|]).
  exact (read_your_write jello (newArray "imb") 1 3 built_jello H1 H2 H3).
Defined.

Lemma Splice_undo_witness :
  built_below cap jello /\ built_below cap (newArray "imb") /\
  in_bounds (Count jello) 1 3 /\
  Count jello + (Count (newArray "imb") - 3) < cap /\
  exists b old u,
    Splice jello 1 3 (newArray "imb") = Ok b /\ Slice jello 1 3 = Ok old /\
    Splice b 1 (Count (newArray "imb")) old = Ok u /\
    Count u = Count jello /\ toString u = toString jello.
Proof.
  assert (H1 : built_below cap (newArray "imb"))
    by (apply built_newArray; by_compute).
  assert (H2 : in_bounds (Count jello) 1 3) by by_compute.
  assert (H3 : Count jello + (Count (newArray "imb") - 3) < cap)
    by by_compute.
  split; [exact built_jello|]. repeat (split; [assumption|]).
  exact (Splice_undo jello (newArray "imb") 1 3 built_jello H1 H2 H3).
Defined.

Lemma Splice_overwrites_witness :
  built_below cap jello /\ built_below cap (newArray "imb") /\
  built_below cap (newArray "n") /\
  in_bounds (Count jello) 1 3 /\
  Count jello + (Count (newArray "imb") - 3) < cap /\
  Count jello + (Count (newArray "n") - 3) < cap /\
  exists b1 b2 b3,
    Splice jello 1 3 (newArray "imb") = Ok b1 /\
    Splice b1 1 (Count (newArray "imb")) (newArray "n") = Ok b2 /\
    Splice jello 1 3 (newArray "n") = Ok b3 /\
    Count b2 = Count b3 /\ toString b2 = toString b3.
Proof.
  assert (H1 : built_below cap (newArray "imb"))
    by (apply built_newArray; by_compute).
  assert (H2 : built_below cap (newArray "n"))
    by (apply built_newArray; by_compute).
  assert (H3 : in_bounds (Count jello) 1 3) by by_compute.
  assert (H4 : Count jello + (Count (newArray "imb") - 3) < cap)
    by by_compute.
  assert (H5 : Count jello + (Count (newArray "n") - 3) < cap)
    by by_compute.
  split; [exact built_jello|]. repeat (split; [assumption|]).
  exact (Splice_overwrites jello (newArray "imb") (newArray "n") 1 3
           built_jello H1 H2 H3 H4 H5).
Defined.

Lemma Slicer_Splice_spec_witness :
  in_range (3 + -2) /\
  Slicer_Splice (str "hello") 3 (-2) (VSlicer (str "X"))
  = Ok (str "helXello").
Proof.
  assert (H1 : in_range (3 + -2)) by by_compute.
  split; [assumption|].
  apply (Slicer_Splice_spec (str "hello") (str "helXello") 3 (-2)
           (VSlicer (str "X")) H1).
  exists (str "X"). by_compute.
Defined.

Lemma random_splices_agree_witness :
  (forall g n : Z, 0 < n ->
     0 <= fst (g mod n, (g * 1103515245 + 12345) mod 2 ^ 31) < n) /\
  0 <= 500000 /\ len (str "helloworld") + 500000 < cap /\
  exists a s size,
    benchmarkRun Z 42
      (fun g n => (g mod n, (g * 1103515245 + 12345) mod 2 ^ 31)) 500000
      TestRandomSplices_init TestRandomSplices_splice (str "helloworld")
    = Continue ((a, s), size) /\
    toString a = Some s /\ Count a = size /\ len s = size /\
    size <= len (str "helloworld") + 500000 /\
    1 <= Limit a <= 10 /\ depth a = 10 - Limit a.
Proof.
  assert (H1 : forall g n : Z, 0 < n ->
             0 <= fst (g mod n, (g * 1103515245 + 12345) mod 2 ^ 31) < n).
  { intros g n Hn. cbn [fst]. now apply Z.mod_pos_bound. }
  assert (H2 : 0 <= 500000) by lia.
  assert (H3 : len (str "helloworld") + 500000 < cap) by by_compute.
  split; [exact H1|]. split; [exact H2|]. split; [exact H3|].
  exact (random_splices_agree Z 42 _ H1 (str "helloworld") 500000 H2 H3).
Defined.

Lemma TestRandomSplices_passes_witness :
  (forall g n : Z, 0 < n ->
     0 <= fst (g mod n, (g * 1103515245 + 12345) mod 2 ^ 31) < n) /\
  10 <= 2 ^ 48 /\ 0 <= 1000000 <= 2 ^ 48 /\
  TestRandomSplices Z 42
    (fun g n => (g mod n, (g * 1103515245 + 12345) mod 2 ^ 31)) (2 ^ 48)
    1000000
  = Continue tt.
Proof.
  assert (H1 : forall g n : Z, 0 < n ->
             0 <= fst (g mod n, (g * 1103515245 + 12345) mod 2 ^ 31) < n).
  { intros g n Hn. cbn [fst]. now apply Z.mod_pos_bound. }
  assert (H2 : 10 <= 2 ^ 48) by lia.
  assert (H3 : 0 <= 1000000 <= 2 ^ 48) by lia.
  split; [exact H1|]. split; [exact H2|]. split; [exact H3|].
  exact (TestRandomSplices_passes Z 42 _ (2 ^ 48) H1 1000000 H2 H3).
Defined.

Lemma benchmarks_complete_witness :
  (forall g n : Z, 0 < n ->
     0 <= fst (g mod n, (g * 1103515245 + 12345) mod 2 ^ 31) < n) /\
  len (str "helloworld") + 100 < cap /\
  BenchmarkLazy Z 42
    (fun g n => (g mod n, (g * 1103515245 + 12345) mod 2 ^ 31)) 5000
    (str "helloworld") = Continue tt /\
  BenchmarkString Z 42
    (fun g n => (g mod n, (g * 1103515245 + 12345) mod 2 ^ 31)) 5000
    (str "helloworld") = Continue tt.
Proof.
  assert (H1 : forall g n : Z, 0 < n ->
             0 <= fst (g mod n, (g * 1103515245 + 12345) mod 2 ^ 31) < n).
  { intros g n Hn. cbn [fst]. now apply Z.mod_pos_bound. }
  assert (H2 : len (str "helloworld") + 100 < cap) by by_compute.
  split; [exact H1|]. split; [exact H2|].
  exact (benchmarks_complete Z 42 _ H1 5000 (str "helloworld") H2).
Defined.

Lemma traversal_is_local_witness :
  built_below cap jimbo /\ replacement jimbo = Some (newArray "imb") /\
  in_bounds (Count jimbo) 2 2 /\
  offset jimbo <= 2 /\ 2 + 2 <= offset jimbo + Count (newArray "imb") /\
  observable (Array_forEach jimbo 2 2)
  = observable (Array_forEach (newArray "imb") (2 - offset jimbo) 2).
Proof.
  assert (H1 : replacement jimbo = Some (newArray "imb")) by reflexivity.
  assert (H2 : in_bounds (Count jimbo) 2 2) by by_compute.
  assert (H3 : offset jimbo <= 2) by by_compute.
  assert (H4 : 2 + 2 <= offset jimbo + Count (newArray "imb")) by by_compute.
  split; [exact built_jimbo|]. repeat (split; [assumption|]).
  exact (proj1 (proj2 (traversal_is_local jimbo (newArray "imb") 2 2
                         built_jimbo H1 H2)) H3 H4).
Defined.

Lemma disjoint_Splices_commute_witness :
  built_below cap jello /\ built_below cap (newArray "imb") /\
  built_below cap (newArray "n") /\
  0 <= 0 /\ 0 <= 1 /\ 0 + 1 <= 3 /\ 0 <= 2 /\ 3 + 2 <= Count jello /\
  Count jello + Count (newArray "imb") + Count (newArray "n") < cap /\
  exists b1 b12 b2 b21,
    Splice jello 0 1 (newArray "imb") = Ok b1 /\
    Splice b1 (3 + (Count (newArray "imb") - 1)) 2 (newArray "n") = Ok b12 /\
    Splice jello 3 2 (newArray "n") = Ok b2 /\
    Splice b2 0 1 (newArray "imb") = Ok b21 /\
    Count b12 = Count b21 /\ toString b12 = toString b21.
Proof.
  assert (H1 : built_below cap (newArray "imb"))
    by (apply built_newArray; by_compute).
  assert (H2 : built_below cap (newArray "n"))
    by (apply built_newArray; by_compute).
  assert (H3 : 0 <= 0) by lia.
  assert (H4 : 0 <= 1) by lia.
  assert (H5 : 0 + 1 <= 3) by lia.
  assert (H6 : 0 <= 2) by lia.
  assert (H7 : 3 + 2 <= Count jello) by by_compute.
  assert (H8 : Count jello + Count (newArray "imb") + Count (newArray "n")
               < cap) by by_compute.
  split; [exact built_jello|]. repeat (split; [assumption|]).
  exact (disjoint_Splices_commute jello (newArray "imb") (newArray "n")
           0 1 3 2 built_jello H1 H2 H3 H4 H5 H6 H7 H8).
Defined.

End FurtherRuns.
